(** * go_cache: a transparent price cache in front of an expensive service

    Shallow embedding of package [go_cache]: [cache.go], and the revision of
    [GetPriceFor] that deletes an entry it finds expired.  The third
    revision of the file differs from [cache.go] in names only (an
    [ItemPrice] struct for the pairs on the channel, a method
    [getExpiration] for [planExpiration]).

    Modelling conventions:
    - [float64] is Rocq's primitive binary64 float; prices are only stored,
      copied and returned, never computed with.
    - [int64] and [time.Duration] are [Z]; the one place where the code can
      leave the 64-bit range, [time.Now().Add(d).UnixNano()], has its
      wrap-around written out ([int64_wrap]).
    - a Go [error] is its message ([err.Error()]); [nil] is [None].
    - [map[string]ItemPriceCache] is a [gmap string ItemPriceCache].
    - [time.Now()] reads an oracle: the n-th reading of the wall clock is
      [clock n], so that successive readings are unrelated unless a theorem
      relates them.
    - the [PriceService] interface is a type class over the state of the
      implementing object; every invocation is appended to the log [calls].
    - [log.Printf] is not modelled. *)

From Stdlib Require Import ZArith Lia Floats.
From stdpp Require Import base option strings list gmap.

Open Scope Z_scope.

(** ** Machine integers *)

Definition int64_min : Z := - 2 ^ 63.
Definition int64_max : Z := 2 ^ 63 - 1.

(** Two's complement reduction to 64 bits. *)
Definition int64_wrap (z : Z) : Z := (z + 2 ^ 63) mod 2 ^ 64 - 2 ^ 63.

Definition in_int64 (z : Z) : Prop := int64_min <= z <= int64_max.

(** ** Data model *)

Definition error := string.

(** [type PriceService interface { GetPriceFor(itemCode string) (float64, error) }] *)
Class PriceService (S : Type) :=
  ServiceGetPriceFor : S → string → S * (float * option error).

(** [type ItemPriceCache struct { Price float64; Expiration int64 }] *)
Record ItemPriceCache := mkItem {
  Price : float;
  Expiration : Z;
}.

(** One logged invocation of the collaborator: the key and what it answered. *)
Definition call : Type := string * (float * option error).

Definition failed (c : call) : Prop := is_Some (c.2.2).

Section TransparentCache.
Context {S : Type} `{!PriceService S}.

(** [type TransparentCache struct] *)
Record TransparentCache := mkCache {
  actualPriceService : S;
  maxAge : Z;
  prices : gmap string ItemPriceCache;
}.

(** The cache object together with the environment its methods act on:
    the wall clock, the number of readings taken so far and the log of
    collaborator calls. *)
Record state := mkWorld {
  self :> TransparentCache;
  clock : nat → Z;
  tick : nat;
  calls : list call;
}.

Abbreviation mkState svc age m clk t log := (mkWorld (mkCache svc age m) clk t log).

(** [NewTransparentCache(actualPriceService, maxAge)] *)
Definition NewTransparentCache (svc : S) (age : Z) (clk : nat → Z) : state :=
  mkState svc age ∅ clk 0 [].

(** A small state monad for the methods of the cache. *)
Definition M (A : Type) : Type := state → A * state.
Definition ret {A} (a : A) : M A := λ s, (a, s).
Definition bind {A B} (m : M A) (f : A → M B) : M B :=
  λ s, let '(a, s') := m s in f a s'.

Notation "'let!' x ':=' m 'in' k" := (bind m (λ x, k))
  (at level 10, x name, m at level 100, k at level 200).
Notation "'do!' m 'in' k" := (bind m (λ _, k))
  (at level 10, m at level 100, k at level 200).

(** [time.Now().UnixNano()] *)
Definition time_Now_UnixNano : M Z :=
  λ s, (int64_wrap (clock s (tick s)),
        mkState (actualPriceService s) (maxAge s) (prices s) (clock s)
                (Datatypes.S (tick s)) (calls s)).

(** [time.Now().Add(duration).UnixNano()] : the sum is formed on the
    [Time] value and only then reduced to an [int64]. *)
Definition time_Now_Add_UnixNano (duration : Z) : M Z :=
  λ s, (int64_wrap (clock s (tick s) + duration),
        mkState (actualPriceService s) (maxAge s) (prices s) (clock s)
                (Datatypes.S (tick s)) (calls s)).

(** [func (item *ItemPriceCache) IsExpired() bool] *)
Definition IsExpired (item : ItemPriceCache) : M bool :=
  let! now := time_Now_UnixNano in
  ret (now >? Expiration item).

(** [func planExpiration(duration time.Duration) int64] *)
Definition planExpiration (duration : Z) : M Z :=
  time_Now_Add_UnixNano duration.

(** [c.actualPriceService.GetPriceFor(itemCode)], logged. *)
Definition callService (itemCode : string) : M (float * option error) :=
  λ s, let '(svc', r) := ServiceGetPriceFor (actualPriceService s) itemCode in
       (r, mkState svc' (maxAge s) (prices s) (clock s) (tick s)
                   (calls s ++ [(itemCode, r)])).

(** [c.prices[itemCode] = item] *)
Definition storePrice (itemCode : string) (item : ItemPriceCache) : M unit :=
  λ s, (tt, mkState (actualPriceService s) (maxAge s)
                    (<[itemCode := item]> (prices s)) (clock s) (tick s) (calls s)).

(** [delete(c.prices, itemCode)] *)
Definition deletePrice (itemCode : string) : M unit :=
  λ s, (tt, mkState (actualPriceService s) (maxAge s)
                    (delete itemCode (prices s)) (clock s) (tick s) (calls s)).

Definition getPrices : M (gmap string ItemPriceCache) := λ s, (prices s, s).
Definition getMaxAge : M Z := λ s, (maxAge s, s).

(** [fmt.Errorf("getting item from service : %v", err.Error())] *)
Definition wrapError (err : error) : error :=
  String.append "getting item from service : " err.

(** The part of [GetPriceFor] after the cache was found unusable
    (cache.go, lines 56-68). *)
Definition fetchAndStore (itemCode : string) : M (float * option error) :=
  let! r := callService itemCode in
  match r.2 with
  | Some err => ret (0%float, Some (wrapError err))
  | None =>
      let! age := getMaxAge in
      let! expiration := planExpiration age in
      do! storePrice itemCode (mkItem r.1 expiration) in
      ret (r.1, None)
  end.

(** [func (c *TransparentCache) GetPriceFor(itemCode string) (float64, error)]
    (cache.go, lines 49-69).  [ok && !item.IsExpired()] does not read the
    clock when the key is absent. *)
Definition GetPriceFor (itemCode : string) : M (float * option error) :=
  let! m := getPrices in
  match m !! itemCode with
  | Some item =>
      let! expired := IsExpired item in
      if negb expired then ret (Price item, None)
      else fetchAndStore itemCode
  | None => fetchAndStore itemCode
  end.

(** *** The variant of [GetPriceFor] that purges expired entries

    In this revision of the file an entry found expired is deleted before
    the collaborator is asked (lines 52-58: "removing from cache when
    expired"); the rest of the method is the same. *)
Definition GetPriceFor_purging (itemCode : string) : M (float * option error) :=
  let! m := getPrices in
  match m !! itemCode with
  | Some item =>
      let! expired := IsExpired item in
      if negb expired then ret (Price item, None)
      else
        do! deletePrice itemCode in
        fetchAndStore itemCode
  | None => fetchAndStore itemCode
  end.

(** ** Batch retrieval: [GetPricesFor] (cache.go, lines 73-138)

    One goroutine per item code, two unbuffered channels ([ch] for
    code/price pairs, [errCh] for errors) and the caller in a
    [for { select }] loop.  A goroutine is at one of the program points
    below; since both channels are unbuffered, a send completes in one step
    together with the matching receive of the coordinator.  Both channels
    are closed by the deferred calls when the coordinator returns, and a
    send on a closed channel (pending or later) panics; the panic is
    recorded in the goroutine that raised it.  Map accesses are taken to be
    atomic.  The program itself does not synchronise the lookups of line 90
    with the store write of line 128, and the Go runtime may end the process
    where they overlap: the runs below are those in which it does not, and
    the properties say what [GetPricesFor] returns when it returns, not
    that it returns. *)
Inductive goroutine :=
  | GStart (code : string)                               (* line 90 *)
  | GSendHit (code : string) (price : float)             (* line 93, at [ch <-] *)
  | GFetch (code : string)                               (* line 100 *)
  | GSendErr (code : string) (price : float) (err : error) (* line 104, at [errCh <-] *)
  | GSendRes (code : string) (price : float)             (* line 107, at [ch <-] *)
  | GDone (code : string) (price : float)                (* returned, pair delivered *)
  | GPanic (code : string).                              (* send on closed channel *)

Inductive coordinator :=
  | Selecting (results : list float)                     (* line 117, channels open *)
  | Returned (results : list float) (err : option error). (* returned, channels closed *)

Record config := mkConfig {
  cache : state;
  itemCodes : list string;
  goroutines : list goroutine;
  coord : coordinator;
}.

(** Lines 90-98 of the goroutine: cache lookup. *)
Definition goStart (code : string) : M goroutine :=
  let! m := getPrices in
  match m !! code with
  | Some item =>
      let! expired := IsExpired item in
      if negb expired then ret (GSendHit code (Price item))
      else ret (GFetch code)
  | None => ret (GFetch code)
  end.

(** Lines 100-105 of the goroutine: the collaborator call. *)
Definition goFetch (code : string) : M goroutine :=
  let! r := callService code in
  match r.2 with
  | Some err => ret (GSendErr code r.1 err)
  | None => ret (GSendRes code r.1)
  end.

(** Lines 121-135 of the coordinator: one pair received from [ch]. *)
Definition recvResult (n : nat) (results : list float)
    (code : string) (price : float) : M coordinator :=
  let results := results ++ [price] in
  let! age := getMaxAge in
  let! expiration := planExpiration age in
  do! storePrice code (mkItem price expiration) in
  if (length results =? n)%nat then ret (Returned results None)
  else ret (Selecting results).

Definition resume (c : config) (i : nat) (g : goroutine)
    (s : state) (k : coordinator) : config :=
  mkConfig s (itemCodes c) (<[i := g]> (goroutines c)) k.

(** One step of goroutine [i]; [None] when it has terminated (or does not
    exist).  While the coordinator is in its [select], every send finds it
    ready to receive. *)
Definition step (c : config) (i : nat) : option config :=
  match goroutines c !! i with
  | None => None
  | Some g =>
    match g with
    | GStart code =>
        let '(g', s') := goStart code (cache c) in
        Some (resume c i g' s' (coord c))
    | GFetch code =>
        let '(g', s') := goFetch code (cache c) in
        Some (resume c i g' s' (coord c))
    | GSendErr code price err =>
        match coord c with
        | Selecting _ =>
            (* lines 118-120: [return nil, err] *)
            Some (resume c i (GSendRes code price) (cache c) (Returned [] (Some err)))
        | Returned _ _ => Some (resume c i (GPanic code) (cache c) (coord c))
        end
    | GSendHit code price | GSendRes code price =>
        match coord c with
        | Selecting results =>
            let '(k, s') :=
              recvResult (length (itemCodes c)) results code price (cache c) in
            Some (resume c i (GDone code price) s' k)
        | Returned _ _ => Some (resume c i (GPanic code) (cache c) (coord c))
        end
    | GDone _ _ | GPanic _ => None
    end
  end.

(** [c.GetPricesFor(itemCodes...)] : the goroutines are spawned and the
    coordinator enters its loop with [results] nil. *)
Definition GetPricesFor (itemCodes : list string) (s : state) : config :=
  mkConfig s itemCodes (GStart <$> itemCodes) (Selecting []).

(** A schedule names the goroutine that moves next; naming one that cannot
    move leaves the configuration as it is. *)
Fixpoint run (sched : list nat) (c : config) : config :=
  match sched with
  | [] => c
  | i :: sched' => run sched' (default c (step c i))
  end.

(** No goroutine can move. *)
Definition terminal (c : config) : Prop := ∀ i, step c i = None.

(** *** Notions used to state the properties *)

(** The clock reading that [GetPriceFor] compares with the expiration
    instant of a stored entry. *)
Definition now (s : state) : Z := int64_wrap (clock s (tick s)).

(** The three ways through [GetPriceFor]. *)
Inductive outcome (s : state) (itemCode : string) : float * option error → state → Prop :=
  | served item :
      prices s !! itemCode = Some item →
      now s <= Expiration item →
      outcome s itemCode (Price item, None)
        (mkState (actualPriceService s) (maxAge s) (prices s) (clock s)
                 (Datatypes.S (tick s)) (calls s))
  | fetch_failed svc' price err t :
      ServiceGetPriceFor (actualPriceService s) itemCode = (svc', (price, Some err)) →
      (prices s !! itemCode = None ∧ t = tick s ∨
       (∃ item, prices s !! itemCode = Some item ∧ now s > Expiration item) ∧
       t = Datatypes.S (tick s)) →
      outcome s itemCode (0%float, Some (wrapError err))
        (mkState svc' (maxAge s) (prices s) (clock s) t
                 (calls s ++ [(itemCode, (price, Some err))]))
  | fetched svc' price t :
      ServiceGetPriceFor (actualPriceService s) itemCode = (svc', (price, None)) →
      (prices s !! itemCode = None ∧ t = tick s ∨
       (∃ item, prices s !! itemCode = Some item ∧ now s > Expiration item) ∧
       t = Datatypes.S (tick s)) →
      outcome s itemCode (price, None)
        (mkState svc' (maxAge s)
                 (<[itemCode := mkItem price (int64_wrap (clock s t + maxAge s))]> (prices s))
                 (clock s) (Datatypes.S t)
                 (calls s ++ [(itemCode, (price, None))])).

(** The collaborator calls made since the state [s0]. *)
Definition calls_since (s0 s : state) : list call :=
  drop (length (calls s0)) (calls s).

(** [GetPriceFor] answers from the cache: the stored price comes back and
    the collaborator is not asked. *)
Definition served_from_cache (itemCode : string) (s : state) : Prop :=
  ∃ item, prices s !! itemCode = Some item ∧
          (GetPriceFor itemCode s).1 = (Price item, None) ∧
          calls (GetPriceFor itemCode s).2 = calls s.

Definition gcode (g : goroutine) : string :=
  match g with
  | GStart code | GSendHit code _ | GFetch code | GSendErr code _ _
  | GSendRes code _ | GDone code _ | GPanic code => code
  end.

(** The price a goroutine has handed to the coordinator. *)
Definition delivered (g : goroutine) : option float :=
  match g with GDone _ price => Some price | _ => None end.

Definition at_errCh (g : goroutine) : Prop :=
  match g with GSendErr _ _ _ => True | _ => False end.

(** The goroutine is at one of its three sends. *)
Definition at_send (g : goroutine) : Prop :=
  match g with
  | GSendHit _ _ | GSendErr _ _ _ | GSendRes _ _ => True
  | _ => False
  end.

(** Moves a goroutine still has before it terminates, at most. *)
Definition moves_left (g : goroutine) : nat :=
  match g with
  | GStart _ => 4
  | GFetch _ => 3
  | GSendErr _ _ _ => 2
  | GSendHit _ _ | GSendRes _ _ => 1
  | GDone _ _ | GPanic _ => 0
  end.

Definition moves_left_all (c : config) : nat :=
  sum_list_with moves_left (goroutines c).

Definition results_of (k : coordinator) : list float :=
  match k with Selecting rs | Returned rs _ => rs end.

(** The batch returns its values in the order of its keys: what the
    specification asks of a successful call. *)
Definition in_key_order (c : config) : Prop :=
  ∀ rs, coord c = Returned rs None →
        goroutines c = zip_with GDone (itemCodes c) rs.

(** The moves, one by one. *)
Inductive moved (c : config) (i : nat) : config → Prop :=
  | moved_start code g' s' :
      goroutines c !! i = Some (GStart code) →
      goStart code (cache c) = (g', s') →
      moved c i (resume c i g' s' (coord c))
  | moved_fetch code g' s' :
      goroutines c !! i = Some (GFetch code) →
      goFetch code (cache c) = (g', s') →
      moved c i (resume c i g' s' (coord c))
  | moved_err code price err rs :
      goroutines c !! i = Some (GSendErr code price err) →
      coord c = Selecting rs →
      moved c i (resume c i (GSendRes code price) (cache c) (Returned [] (Some err)))
  | moved_result g code price rs k s' :
      goroutines c !! i = Some g →
      g = GSendHit code price ∨ g = GSendRes code price →
      coord c = Selecting rs →
      recvResult (length (itemCodes c)) rs code price (cache c) = (k, s') →
      moved c i (resume c i (GDone code price) s' k)
  | moved_panic g rs err :
      goroutines c !! i = Some g →
      at_send g →
      coord c = Returned rs err →
      moved c i (resume c i (GPanic (gcode g)) (cache c) (coord c)).

(** What holds of every configuration of a batch started in [s0]. *)
Definition batch_inv (s0 : state) (c : config) : Prop :=
  gcode <$> goroutines c = itemCodes c ∧
  ∃ new, calls (cache c) = calls s0 ++ new ∧
    match coord c with
    | Selecting rs =>
        rs ≡ₚ omap delivered (goroutines c) ∧
        (Exists failed new → Exists at_errCh (goroutines c))
    | Returned rs None =>
        rs ≡ₚ omap delivered (goroutines c) ∧
        Forall (λ g, is_Some (delivered g)) (goroutines c) ∧
        ¬ Exists failed new
    | Returned rs (Some _) => rs = []
    end.

(** *** Further notions for the batch *)

(** The goroutine has not yet got past its collaborator call. *)
Definition before_call (g : goroutine) : nat :=
  match g with GStart _ | GFetch _ => 1 | _ => 0 end.

(** At most one collaborator call per goroutine, each for a requested key. *)
Definition batch_inv_calls (s0 : state) (c : config) : Prop :=
  (length (calls_since s0 (cache c)) + sum_list_with before_call (goroutines c)
   ≤ length (goroutines c))%nat ∧
  Forall (λ cl : call, cl.1 ∈ itemCodes c) (calls_since s0 (cache c)).

(** Every error in flight or returned is the answer of a logged call. *)
Definition batch_inv_errors (s0 : state) (c : config) : Prop :=
  (∀ code price err,
     GSendErr code price err ∈ goroutines c →
     (code, (price, Some err)) ∈ calls_since s0 (cache c)) ∧
  (∀ rs err,
     coord c = Returned rs (Some err) →
     ∃ code price, code ∈ itemCodes c ∧
                   (code, (price, Some err)) ∈ calls_since s0 (cache c)).

(** The key of every delivered pair is in the store, with a delivered price. *)
Definition batch_inv_cached (c : config) : Prop :=
  ∀ code price,
    GDone code price ∈ goroutines c →
    ∃ item, prices (cache c) !! code = Some item ∧
            GDone code (Price item) ∈ goroutines c.

(** While the coordinator waits, nothing has panicked and a pair is missing. *)
Definition batch_inv_progress (c : config) : Prop :=
  ∀ rs, coord c = Selecting rs →
        Forall (λ g, ∀ code, g ≠ GPanic code) (goroutines c) ∧
        (goroutines c = [] ∨ (length rs < length (goroutines c))%nat).

(** Entries of keys that were not requested are as at the start. *)
Definition batch_inv_frame (s0 : state) (c : config) : Prop :=
  ∀ k, k ∉ itemCodes c → prices (cache c) !! k = prices s0 !! k.

(** How often the collaborator was asked for [k], and how often [k] occurs
    among the requested codes. *)
Definition calls_for (k : string) (l : list call) : nat :=
  length (filter (λ cl : call, cl.1 = k) l).

Definition occurrences (k : string) (codes : list string) : nat :=
  length (filter (λ code, code = k) codes).

(** The goroutine is for [k]; it is for [k] and has not yet got past its
    collaborator call. *)
Definition is_for (k : string) (g : goroutine) : nat :=
  if decide (gcode g = k) then 1 else 0.

Definition before_call_for (k : string) (g : goroutine) : nat :=
  if decide (gcode g = k) then before_call g else 0.

(** Per key: calls made and goroutines that may still call do not exceed
    the goroutines for that key. *)
Definition batch_inv_calls_for (s0 : state) (c : config) : Prop :=
  ∀ k, (calls_for k (calls_since s0 (cache c)) +
        sum_list_with (before_call_for k) (goroutines c)
        ≤ sum_list_with (is_for k) (goroutines c))%nat.

(** The goroutine has handed over its error and is at, or has panicked at,
    the send of line 107. *)
Definition past_errCh (g : goroutine) : Prop :=
  match g with GSendRes _ _ | GPanic _ => True | _ => False end.

Definition panicked (g : goroutine) : Prop :=
  match g with GPanic _ => True | _ => False end.

(** After an error return some goroutine is bound to panic, or has. *)
Definition batch_inv_crash (c : config) : Prop :=
  ∀ rs err, coord c = Returned rs (Some err) → Exists past_errCh (goroutines c).

(** ** Batch retrieval in the revision that purges expired entries

    There the goroutines call [c.GetPriceFor] themselves and send the price
    alone; the coordinator only collects.  A goroutine is inside
    [GetPriceFor] (lines 49-73 of that revision) until it has a price or an
    error, and moves from one access of the shared store, clock or
    collaborator to the next; the error it sends is the one [GetPriceFor]
    returned.  Map accesses are taken to be atomic here too, although in
    this revision the goroutines themselves write the store side by side:
    the properties say what is returned when the call returns. *)
Inductive pgoroutine :=
  | PStart (code : string)                               (* line 50 *)
  | PDelete (code : string)                              (* line 57 *)
  | PFetch (code : string)                               (* line 61 *)
  | PStore (code : string) (price : float)               (* line 67 *)
  | PSendErr (code : string) (price : float) (err : error) (* line 93, at [errCh <-] *)
  | PSendRes (code : string) (price : float)             (* line 95, at [ch <-] *)
  | PDone (code : string) (price : float)                (* returned, price delivered *)
  | PPanic (code : string).                              (* send on closed channel *)

Record pconfig := mkPConfig {
  pcache : state;
  pitemCodes : list string;
  pgoroutines : list pgoroutine;
  pcoord : coordinator;
}.

(** Lines 50-58: lookup, expiry check. *)
Definition pStart (code : string) : M pgoroutine :=
  let! m := getPrices in
  match m !! code with
  | Some item =>
      let! expired := IsExpired item in
      if negb expired then ret (PSendRes code (Price item))
      else ret (PDelete code)
  | None => ret (PFetch code)
  end.

(** Line 57: [delete(c.prices, itemCode)]. *)
Definition pDelete (code : string) : M pgoroutine :=
  do! deletePrice code in
  ret (PFetch code).

(** Lines 61-65: the collaborator call; on failure [GetPriceFor] returns
    0 and the wrapped error, which the goroutine sends on. *)
Definition pFetch (code : string) : M pgoroutine :=
  let! r := callService code in
  match r.2 with
  | Some err => ret (PSendErr code 0%float (wrapError err))
  | None => ret (PStore code r.1)
  end.

(** Lines 67-72: the store write. *)
Definition pStore (code : string) (price : float) : M pgoroutine :=
  let! age := getMaxAge in
  let! expiration := planExpiration age in
  do! storePrice code (mkItem price expiration) in
  ret (PSendRes code price).

(** Lines 104-108 of the coordinator: one price received from [ch]. *)
Definition precvResult (n : nat) (results : list float) (price : float) : coordinator :=
  let results := results ++ [price] in
  if (length results =? n)%nat then Returned results None else Selecting results.

Definition presume (c : pconfig) (i : nat) (g : pgoroutine)
    (s : state) (k : coordinator) : pconfig :=
  mkPConfig s (pitemCodes c) (<[i := g]> (pgoroutines c)) k.

Definition pstep (c : pconfig) (i : nat) : option pconfig :=
  match pgoroutines c !! i with
  | None => None
  | Some g =>
    match g with
    | PStart code =>
        let '(g', s') := pStart code (pcache c) in
        Some (presume c i g' s' (pcoord c))
    | PDelete code =>
        let '(g', s') := pDelete code (pcache c) in
        Some (presume c i g' s' (pcoord c))
    | PFetch code =>
        let '(g', s') := pFetch code (pcache c) in
        Some (presume c i g' s' (pcoord c))
    | PStore code price =>
        let '(g', s') := pStore code price (pcache c) in
        Some (presume c i g' s' (pcoord c))
    | PSendErr code price err =>
        match pcoord c with
        | Selecting _ =>
            Some (presume c i (PSendRes code price) (pcache c) (Returned [] (Some err)))
        | Returned _ _ => Some (presume c i (PPanic code) (pcache c) (pcoord c))
        end
    | PSendRes code price =>
        match pcoord c with
        | Selecting results =>
            Some (presume c i (PDone code price) (pcache c)
                    (precvResult (length (pitemCodes c)) results price))
        | Returned _ _ => Some (presume c i (PPanic code) (pcache c) (pcoord c))
        end
    | PDone _ _ | PPanic _ => None
    end
  end.

Definition GetPricesFor_purging (itemCodes : list string) (s : state) : pconfig :=
  mkPConfig s itemCodes (PStart <$> itemCodes) (Selecting []).

Fixpoint prun (sched : list nat) (c : pconfig) : pconfig :=
  match sched with
  | [] => c
  | i :: sched' => prun sched' (default c (pstep c i))
  end.

Definition pterminal (c : pconfig) : Prop := ∀ i, pstep c i = None.

Definition pgcode (g : pgoroutine) : string :=
  match g with
  | PStart code | PDelete code | PFetch code | PStore code _
  | PSendErr code _ _ | PSendRes code _ | PDone code _ | PPanic code => code
  end.

(** What holds of every configuration of such a batch started in [s0]:
    errors in flight or returned are wrapped answers of logged calls for
    requested keys, and entries of other keys are untouched. *)
Definition pbatch_inv (s0 : state) (c : pconfig) : Prop :=
  pgcode <$> pgoroutines c = pitemCodes c ∧
  (∃ new, calls (pcache c) = calls s0 ++ new) ∧
  (∀ code price err,
     PSendErr code price err ∈ pgoroutines c →
     price = 0%float ∧
     ∃ msg p0, err = wrapError msg ∧
               (code, (p0, Some msg)) ∈ calls_since s0 (pcache c)) ∧
  (∀ rs err,
     pcoord c = Returned rs (Some err) →
     rs = [] ∧
     ∃ code msg p0, code ∈ pitemCodes c ∧ err = wrapError msg ∧
                    (code, (p0, Some msg)) ∈ calls_since s0 (pcache c)) ∧
  (∀ k, k ∉ pitemCodes c → prices (pcache c) !! k = prices s0 !! k).

(** The first goroutine moved [n] times, as far as it can. *)
Fixpoint piter (n : nat) (c : pconfig) : pconfig :=
  match n with
  | O => c
  | Datatypes.S n' =>
      match pstep c 0%nat with
      | Some c' => piter n' c'
      | None => c
      end
  end.

End TransparentCache.

Arguments TransparentCache S : clear implicits.
Arguments state S : clear implicits.

Abbreviation mkState svc age m clk t log := (mkWorld (mkCache svc age m) clk t log).
Arguments M S A : clear implicits.
Arguments config S : clear implicits.
Arguments pconfig S : clear implicits.

(** ** A stub collaborator

    Answers from a fixed price table and fails for every other item. *)
Definition stub : Type := list (string * float).

Fixpoint stub_find (tbl : stub) (code : string) : option float :=
  match tbl with
  | [] => None
  | (k, p) :: tbl' => if String.eqb k code then Some p else stub_find tbl' code
  end.

#[export] Instance stub_service : PriceService stub :=
  λ tbl code, (tbl, match stub_find tbl code with
                    | Some p => (p, None)
                    | None => (0%float, Some "item not found"%string)
                    end).

(** A service that knows the items "a" and "b", a clock that starts at 5000 ns
    and advances by 1 ns per reading, and caches with a [maxAge] of 1000 ns:
    empty, holding an entry that expires exactly at the first reading, and
    holding an entry that expired before it. *)
Definition demo_clock (n : nat) : Z := 5000 + Z.of_nat n.

Definition demo_service : stub := [("a"%string, 1%float); ("b"%string, 2%float)].

Definition demo_cache : state stub :=
  NewTransparentCache demo_service 1000 demo_clock.

Definition edge_cache : state stub :=
  mkState demo_service 1000 {["a"%string := mkItem 7%float 5000]} demo_clock 0 [].

Definition stale_cache : state stub :=
  mkState demo_service 1000 {["A1"%string := mkItem 5%float 4000]} demo_clock 0 [].

(** An empty cache whose entries expire at once ([maxAge] 0). *)
Definition impatient_cache : state stub :=
  NewTransparentCache demo_service 0 demo_clock.


(** ** Text of an error *)

(** [needle] occurs in [s]. *)
Fixpoint contains (needle s : string) : bool :=
  String.prefix needle s ||
  match s with
  | EmptyString => false
  | String _ s' => contains needle s'
  end.

(** * Properties *)

Lemma int64_wrap_id z : in_int64 z → int64_wrap z = z.
Proof.
  unfold in_int64, int64_min, int64_max, int64_wrap. intros Hz.
  rewrite Z.mod_small; lia.
Qed.

Lemma int64_wrap_range z : in_int64 (int64_wrap z).
Proof.
  unfold in_int64, int64_min, int64_max, int64_wrap.
  pose proof (Z.mod_pos_bound (z + 2 ^ 63) (2 ^ 64)). lia.
Qed.

Lemma snoc_neq {A} (l : list A) x : l ++ [x] ≠ l.
Proof.
  intros Heq. apply (f_equal length) in Heq.
  rewrite length_app in Heq. simpl in Heq. lia.
Qed.

Section Single.
Context {S : Type} `{!PriceService S}.
Implicit Types (s : state S) (itemCode : string).

Lemma GetPriceFor_outcome s itemCode :
  outcome s itemCode (GetPriceFor itemCode s).1 (GetPriceFor itemCode s).2.
Proof.
  unfold GetPriceFor, fetchAndStore, IsExpired, planExpiration, callService,
    time_Now_UnixNano, time_Now_Add_UnixNano, storePrice, getPrices, getMaxAge,
    bind, ret; simpl.
  destruct (prices s !! itemCode) as [item|] eqn:Hlook; simpl.
  - destruct (Z.gtb_spec (int64_wrap (clock s (tick s))) (Expiration item)) as [Hgt|Hle];
      simpl.
    + destruct (ServiceGetPriceFor (actualPriceService s) itemCode)
        as [svc' [price [err|]]] eqn:Hsvc; simpl.
      * apply fetch_failed; [done|]. right. split; [|done].
        exists item. split; [done|]. unfold now. lia.
      * apply fetched; [done|]. right. split; [|done].
        exists item. split; [done|]. unfold now. lia.
    + by apply served.
  - destruct (ServiceGetPriceFor (actualPriceService s) itemCode)
      as [svc' [price [err|]]] eqn:Hsvc; simpl.
    + apply fetch_failed; [done|]. by left.
    + apply fetched; [done|]. by left.
Qed.

(** Case analysis of a call whose result and final state are named. *)
Lemma GetPriceFor_inv s itemCode r s' :
  GetPriceFor itemCode s = (r, s') → outcome s itemCode r s'.
Proof.
  intros Heq. pose proof (GetPriceFor_outcome s itemCode) as Ho.
  by rewrite Heq in Ho.
Qed.

Ltac outcomes H :=
  apply GetPriceFor_inv in H; inversion H; subst; clear H;
  cbn [fst snd calls prices tick clock maxAge actualPriceService self] in *;
  repeat match goal with
  | H : ?l = ?l ++ [_] |- _ => symmetry in H; apply snoc_neq in H; destruct H
  | H : ?l ++ [_] = ?l |- _ => apply snoc_neq in H; destruct H
  | H : ?l ++ [_] = ?l ++ [_] |- _ => apply app_inv_head in H; simplify_eq
  end.

Lemma fresh_entry_served s itemCode item r s' :
  prices s !! itemCode = Some item →
  now s <= Expiration item →
  GetPriceFor itemCode s = (r, s') →
  r = (Price item, None) ∧ calls s' = calls s ∧ prices s' = prices s ∧
  actualPriceService s' = actualPriceService s.
Proof.
  intros Hlook Hfresh Hcall. outcomes Hcall.
  - by simplify_eq.
  - match goal with H : _ ∨ _ |- _ => destruct H as [[? _]|[(it & ? & ?) _]] end;
      simplify_eq; lia.
  - match goal with H : _ ∨ _ |- _ => destruct H as [[? _]|[(it & ? & ?) _]] end;
      simplify_eq; lia.
Qed.


(** C5, as the code has it.  A stored entry is served from the cache
    exactly when the clock reading does not exceed its expiration instant;
    and the entry that [GetPriceFor] writes after a successful fetch expires
    at the clock reading taken right after that fetch plus [maxAge],
    reduced to an [int64]. *)
Theorem served_iff_not_past_expiration :
  (∀ s itemCode item,
     prices s !! itemCode = Some item →
     served_from_cache itemCode s ↔ now s <= Expiration item) ∧
  (∀ s itemCode price s',
     GetPriceFor itemCode s = ((price, None), s') →
     calls s' = calls s ++ [(itemCode, (price, None))] →
     prices s' !! itemCode =
       Some (mkItem price (int64_wrap (clock s (pred (tick s')) + maxAge s)))).
Proof.
  split.
  - intros s itemCode item Hlook. split.
    + intros (item' & Hlook' & Hres & Hcalls).
      destruct (GetPriceFor itemCode s) as [r s'] eqn:Hcall. simpl in *.
      outcomes Hcall. by simplify_eq.
    + intros Hfresh. exists item. split; [done|].
      destruct (GetPriceFor itemCode s) as [r s'] eqn:Hcall.
      destruct (fresh_entry_served _ _ _ _ _ Hlook Hfresh Hcall)
        as (Hr & Hc & _). simpl. by rewrite Hr, Hc.
  - intros s itemCode price s' Hcall Hlog. outcomes Hcall.
    apply lookup_insert_eq.
Qed.

(** C6.  When the collaborator fetch made by [GetPriceFor] fails, an
    error is returned and the store is exactly as before the call; the store
    differs after a call only if that call fetched successfully. *)
Theorem GetPriceFor_failure_keeps_store s itemCode r s' :
  GetPriceFor itemCode s = (r, s') →
  ((∃ price err, calls s' = calls s ++ [(itemCode, (price, Some err))]) →
   prices s' = prices s ∧ is_Some r.2) ∧
  (prices s' ≠ prices s →
   ∃ price, calls s' = calls s ++ [(itemCode, (price, None))] ∧ r = (price, None)).
Proof.
  intros Hcall. split.
  - intros (price & err & Hlog). outcomes Hcall. split; [done|]. by eexists.
  - intros Hchanged. outcomes Hcall; [done..|]. by eexists.
Qed.

(** C7, as the code has it.  When the collaborator fetch fails with
    message [err], the error returned by [GetPriceFor] is exactly the fixed
    text "getting item from service : " followed by [err].  The item code
    is not put into it: a failed fetch for any other key, in any state of
    the cache, with the same collaborator message returns the very same
    error. *)
Theorem GetPriceFor_error_text s itemCode r s' price err :
  GetPriceFor itemCode s = (r, s') →
  calls s' = calls s ++ [(itemCode, (price, Some err))] →
  r.2 = Some (String.append "getting item from service : " err) ∧
  (∀ s2 itemCode2 r2 s2' price2,
     GetPriceFor itemCode2 s2 = (r2, s2') →
     calls s2' = calls s2 ++ [(itemCode2, (price2, Some err))] →
     r2.2 = r.2).
Proof.
  intros Hcall Hlog. outcomes Hcall. split; [done|].
  intros s2 itemCode2 r2 s2' price2 Hcall2 Hlog2. by outcomes Hcall2.
Qed.

(** C10.  When the collaborator fetch fails, [GetPriceFor] returns the
    number 0 next to the error, whatever the store held for the key. *)
Theorem GetPriceFor_failure_returns_zero s itemCode r s' price err :
  GetPriceFor itemCode s = (r, s') →
  calls s' = calls s ++ [(itemCode, (price, Some err))] →
  r.1 = 0%float ∧ is_Some r.2.
Proof.
  intros Hcall Hlog. outcomes Hcall. split; [done|]. by eexists.
Qed.

End Single.

(** ** Lists of goroutines *)

Section Lists.
Context {A B : Type} (f : A → option B).
Implicit Types (l : list A).

Lemma omap_insert_None l i x y :
  l !! i = Some x → f x = None → f y = None →
  omap f (<[i := y]> l) = omap f l.
Proof.
  revert i. induction l as [|a l IH]; intros [|i] Hi Hx Hy; simplify_eq/=.
  - by rewrite Hx, Hy.
  - by rewrite (IH i).
Qed.

Lemma omap_insert_Some l i x y b :
  l !! i = Some x → f x = None → f y = Some b →
  omap f (<[i := y]> l) ≡ₚ omap f l ++ [b].
Proof.
  revert i. induction l as [|a l IH]; intros [|i] Hi Hx Hy; simplify_eq/=.
  - rewrite Hx, Hy. apply Permutation_cons_append.
  - destruct (f a); simpl; [f_equiv|]; by apply (IH i).
Qed.

Lemma length_omap_le l : (length (omap f l) ≤ length l)%nat.
Proof.
  induction l as [|a l IH]; csimpl; [lia|]. destruct (f a); csimpl; lia.
Qed.

Lemma omap_full l :
  length (omap f l) = length l → Forall (λ x, is_Some (f x)) l.
Proof.
  induction l as [|a l IH]; csimpl; intros Hlen; [constructor|].
  pose proof (length_omap_le l).
  destruct (f a) eqn:Ha; csimpl in Hlen; [|lia].
  constructor; [by rewrite Ha|]. apply IH. lia.
Qed.

Lemma Exists_insert_other (P : A → Prop) l i x y :
  Exists P l → l !! i = Some x → ¬ P x → Exists P (<[i := y]> l).
Proof.
  intros (z & Hz & HP)%Exists_exists Hi Hx.
  apply list_elem_of_lookup in Hz as [j Hj].
  apply Exists_exists. exists z. split; [|done].
  apply list_elem_of_lookup. exists j.
  rewrite list_lookup_insert_ne; [done|]. intros ->. by simplify_eq.
Qed.

End Lists.

Lemma fmap_insert_same {A B} (f : A → B) (l : list A) i x y :
  l !! i = Some x → f y = f x → f <$> <[i := y]> l = f <$> l.
Proof.
  intros Hi Hf. rewrite list_fmap_insert, Hf.
  apply list_insert_id. by rewrite list_lookup_fmap, Hi.
Qed.

Lemma sum_list_with_insert {A} (f : A → nat) (l : list A) i x y :
  l !! i = Some x →
  (sum_list_with f (<[i := y]> l) + f x = sum_list_with f l + f y)%nat.
Proof.
  revert i. induction l as [|a l IH]; intros [|i] Hi; simplify_eq/=; [lia|].
  specialize (IH i Hi). lia.
Qed.

(** ** The moves of a batch *)

Section Batch.
Context {S : Type} `{!PriceService S}.
Implicit Types (s : state S) (c : config S) (g : goroutine) (code : string).

Lemma goStart_spec code s g' s' :
  goStart code s = (g', s') →
  calls s' = calls s ∧ prices s' = prices s ∧
  (g' = GFetch code ∨ ∃ price, g' = GSendHit code price).
Proof.
  unfold goStart, IsExpired, time_Now_UnixNano, getPrices, bind, ret; simpl.
  destruct (prices s !! code) as [item|]; simpl.
  - destruct (_ >? _); simpl; intros; simplify_eq; eauto.
  - intros; simplify_eq; eauto.
Qed.

Lemma goFetch_spec code s g' s' :
  goFetch code s = (g', s') →
  prices s' = prices s ∧
  ∃ price,
    (g' = GSendRes code price ∧ calls s' = calls s ++ [(code, (price, None))]) ∨
    (∃ err, g' = GSendErr code price err ∧
            calls s' = calls s ++ [(code, (price, Some err))]).
Proof.
  unfold goFetch, callService, bind, ret; simpl.
  destruct (ServiceGetPriceFor _ _) as [svc' [price [err|]]]; simpl;
    intros; simplify_eq; simpl; eauto 10.
Qed.

Lemma recvResult_spec n rs code price s k s' :
  recvResult n rs code price s = (k, s') →
  calls s' = calls s ∧
  prices s' = <[code := mkItem price (int64_wrap (clock s (tick s) + maxAge s))]> (prices s) ∧
  k = (if (length (rs ++ [price]) =? n)%nat then Returned (rs ++ [price]) None
       else Selecting (rs ++ [price])).
Proof.
  unfold recvResult, planExpiration, time_Now_Add_UnixNano, storePrice, getMaxAge,
    bind, ret; simpl.
  destruct (_ =? _)%nat; intros; by simplify_eq.
Qed.

Lemma step_moved c i c' : step c i = Some c' → moved c i c'.
Proof.
  unfold step. destruct (goroutines c !! i) as [g|] eqn:Hg; [|done].
  destruct g as [code|code price|code|code price err|code price|code price|code].
  - destruct (goStart _ _) as [g' s'] eqn:Hgo. intros [= <-]. by econstructor.
  - destruct (coord c) as [rs|rs err] eqn:Hk.
    + destruct (recvResult _ _ _ _ _) as [k s'] eqn:Hrecv. intros [= <-].
      eapply moved_result; eauto.
    + intros [= <-]. rewrite <- Hk.
      by apply (moved_panic c i (GSendHit code price) rs err).
  - destruct (goFetch _ _) as [g' s'] eqn:Hgo. intros [= <-]. by econstructor.
  - destruct (coord c) as [rs|rs err'] eqn:Hk; intros [= <-].
    + by econstructor.
    + rewrite <- Hk.
      by apply (moved_panic c i (GSendErr code price err) rs err').
  - destruct (coord c) as [rs|rs err] eqn:Hk.
    + destruct (recvResult _ _ _ _ _) as [k s'] eqn:Hrecv. intros [= <-].
      eapply moved_result; eauto.
    + intros [= <-]. rewrite <- Hk.
      by apply (moved_panic c i (GSendRes code price) rs err).
  - done.
  - done.
Qed.

(** A goroutine that has not terminated can always move: no send blocks. *)
Lemma step_enabled c i g :
  goroutines c !! i = Some g → (0 < moves_left g)%nat → is_Some (step c i).
Proof.
  intros Hg Hleft. unfold step. rewrite Hg.
  destruct g; simpl in Hleft; try lia;
    repeat match goal with
    | |- context [goStart ?a ?b] => destruct (goStart a b)
    | |- context [goFetch ?a ?b] => destruct (goFetch a b)
    | |- context [coord c] => destruct (coord c)
    | |- context [recvResult ?a ?b ?d ?e ?h] => destruct (recvResult a b d e h)
    end; eauto.
Qed.

Lemma step_moves_left c i c' :
  step c i = Some c' → (moves_left_all c' < moves_left_all c)%nat.
Proof.
  intros Hstep%step_moved. unfold moves_left_all.
  inversion Hstep as [code g' s' Hg Hgo|code g' s' Hg Hgo|code price err rs Hg Hk
                     |g code price rs k s' Hg Hsend Hk Hrecv|g rs err Hg Hat Hk];
    subst; simpl;
    match goal with
    | |- context [sum_list_with _ (<[_ := ?y]> _)] =>
        pose proof (sum_list_with_insert moves_left _ _ _ y Hg) as Hsum
    end; simpl in Hsum.
  - apply goStart_spec in Hgo as (_ & _ & [->|[price ->]]); simpl in Hsum; lia.
  - apply goFetch_spec in Hgo as (_ & price & [[-> _]|(err & -> & _)]);
      simpl in Hsum; lia.
  - lia.
  - destruct Hsend as [->| ->]; simpl in Hsum; lia.
  - destruct g; try done; simpl in *; lia.
Qed.

Lemma at_errCh_not_delivered g : at_errCh g → delivered g = None.
Proof. by destruct g. Qed.

Lemma not_all_delivered (gs : list goroutine) i g :
  Forall (λ g, is_Some (delivered g)) gs →
  gs !! i = Some g → delivered g = None → False.
Proof.
  intros Hall Hg Hnone. eapply Forall_lookup_1 in Hall; [|done].
  rewrite Hnone in Hall. by destruct Hall.
Qed.

Lemma GetPricesFor_batch_inv s codes : batch_inv s (GetPricesFor codes s).
Proof.
  split; simpl.
  - rewrite <- list_fmap_compose. by induction codes as [|k codes IH]; simplify_eq/=; f_equal.
  - exists []. rewrite app_nil_r. split; [done|]. split.
    + by induction codes.
    + by intros ?%Exists_nil.
Qed.

Lemma step_batch_inv s0 c i c' :
  batch_inv s0 c → step c i = Some c' → batch_inv s0 c'.
Proof.
  intros [Hcodes (new & Hlog & Hk)] Hstep%step_moved.
  inversion Hstep as [code g' s' Hg Hgo|code g' s' Hg Hgo|code price err rs Hg Hsel
                     |g code price rs k s' Hg Hsend Hsel Hrecv|g rs err Hg Hleft Hret];
    subst; unfold batch_inv; simpl.
  - (* cache lookup *)
    apply goStart_spec in Hgo as (Hcalls & _ & Hg').
    assert (gcode g' = code ∧ delivered g' = None ∧ ¬ at_errCh g') as (? & ? & ?)
      by (destruct Hg' as [->|[price ->]]; auto).
    split; [by erewrite fmap_insert_same|].
    exists new. rewrite Hcalls. split; [done|].
    destruct (coord c) as [rs|rs [err|]]; [|done|].
    + destruct Hk as [Hperm Hfail]. erewrite omap_insert_None by done.
      split; [done|]. intros Hex. eapply Exists_insert_other; eauto.
    + destruct Hk as (_ & Hall & _). destruct (not_all_delivered _ _ _ Hall Hg eq_refl).
  - (* collaborator call *)
    apply goFetch_spec in Hgo as (_ & price & Hg').
    assert (gcode g' = code ∧ delivered g' = None) as [? ?]
      by (destruct Hg' as [[-> _]|(err & -> & _)]; auto).
    split; [by erewrite fmap_insert_same|].
    destruct (coord c) as [rs|rs [err|]].
    + destruct Hk as [Hperm Hfail]. erewrite omap_insert_None by done.
      destruct Hg' as [[-> Hcalls]|(err & -> & Hcalls)].
      * exists (new ++ [(code, (price, None))]).
        rewrite Hcalls, Hlog, (assoc_L (++)). split; [done|]. split; [done|].
        intros [Hex|Hex]%Exists_app.
        -- eapply Exists_insert_other; eauto.
        -- apply Exists_cons in Hex as [[? [=]]|Hex]. by apply Exists_nil in Hex.
      * exists (new ++ [(code, (price, Some err))]).
        rewrite Hcalls, Hlog, (assoc_L (++)). split; [done|]. split; [done|].
        intros _. apply Exists_exists. exists (GSendErr code price err).
        split; [|done]. apply list_elem_of_lookup. exists i.
        apply list_lookup_insert_eq. by eapply lookup_lt_Some.
    + destruct Hg' as [[_ Hcalls]|(err' & _ & Hcalls)]; eexists;
        (split; [by rewrite Hcalls, Hlog, <- (assoc_L (++))|done]).
    + destruct Hk as (_ & Hall & _). destruct (not_all_delivered _ _ _ Hall Hg eq_refl).
  - (* error received *)
    split; [by erewrite fmap_insert_same|]. by exists new.
  - (* pair received *)
    apply recvResult_spec in Hrecv as (Hcalls & _ & ->).
    assert (delivered g = None ∧ gcode g = code ∧ ¬ at_errCh g) as (Hnone & ? & ?)
      by (destruct Hsend as [->| ->]; auto).
    split; [by erewrite fmap_insert_same|].
    exists new. rewrite Hcalls. split; [done|].
    rewrite Hsel in Hk. destruct Hk as [Hperm Hfail].
    assert (rs ++ [price] ≡ₚ
            omap delivered (<[i := GDone code price]> (goroutines c))) as Hperm'.
    { rewrite omap_insert_Some by done. by rewrite Hperm. }
    destruct (Nat.eqb_spec (length (rs ++ [price])) (length (itemCodes c))) as [Hlen|_].
    + assert (Forall (λ g, is_Some (delivered g))
                (<[i := GDone code price]> (goroutines c))) as Hall.
      { apply omap_full. rewrite <- Hperm', Hlen, <- Hcodes.
        by rewrite length_fmap, length_insert. }
      split; [done|]. split; [done|]. intros Hex.
      specialize (Hfail Hex).
      eapply (Exists_insert_other _ _ i) in Hfail; [|done..].
      apply Exists_exists in Hfail as (g' & Hin & Herr).
      apply list_elem_of_lookup in Hin as [j Hj].
      eapply not_all_delivered; eauto using at_errCh_not_delivered.
    + split; [done|]. intros Hex. eapply Exists_insert_other; eauto.
  - (* send on a closed channel *)
    split; [by erewrite fmap_insert_same|].
    exists new. split; [done|]. rewrite Hret in Hk |- *.
    destruct err as [err|]; [done|].
    destruct Hk as (_ & Hall & _).
    destruct (not_all_delivered _ _ _ Hall Hg). by destruct g.
Qed.

Lemma run_batch_inv s0 sched c : batch_inv s0 c → batch_inv s0 (run sched c).
Proof.
  revert c. induction sched as [|i sched IH]; intros c Hinv; simpl; [done|].
  apply IH. destruct (step c i) as [c'|] eqn:Hstep; simpl; [|done].
  by eapply step_batch_inv.
Qed.

Lemma all_delivered_zip (gs : list goroutine) :
  Forall (λ g, is_Some (delivered g)) gs →
  gs = zip_with GDone (gcode <$> gs) (omap delivered gs) ∧
  length (omap delivered gs) = length gs.
Proof.
  induction 1 as [|g gs [price Hg] _ [IH1 IH2]]; [done|].
  destruct g; simplify_eq/=. csimpl. by rewrite <- IH1, IH2.
Qed.

Lemma run_itemCodes sched c : itemCodes (run sched c) = itemCodes c.
Proof.
  revert c. induction sched as [|i sched IH]; intros c; simpl; [done|].
  rewrite IH. destruct (step c i) as [c'|] eqn:Hstep; simpl; [|done].
  apply step_moved in Hstep. by inversion Hstep.
Qed.

(** Once the coordinator has returned, what it returned does not change. *)
Lemma step_returned c i c' rs err :
  coord c = Returned rs err → step c i = Some c' → coord c' = Returned rs err.
Proof.
  intros Hret Hstep%step_moved.
  inversion Hstep; subst; simpl; try done; congruence.
Qed.

Lemma run_returned sched c rs err :
  coord c = Returned rs err → coord (run sched c) = Returned rs err.
Proof.
  revert c. induction sched as [|i sched IH]; intros c Hret; simpl; [done|].
  apply IH. destruct (step c i) as [c'|] eqn:Hstep; simpl; [|done].
  by eapply step_returned.
Qed.

Lemma step_prices_dom c i c' :
  step c i = Some c' → dom (prices (cache c)) ⊆ dom (prices (cache c')).
Proof.
  intros Hstep%step_moved.
  inversion Hstep as [code g' s' Hg Hgo|code g' s' Hg Hgo| |g code price rs k s' Hg _ Hk Hrecv| ];
    subst; simpl; [| | done| |done].
  - apply goStart_spec in Hgo as (_ & -> & _). done.
  - apply goFetch_spec in Hgo as (-> & _). done.
  - apply recvResult_spec in Hrecv as (_ & -> & _). rewrite dom_insert_L.
    apply union_subseteq_r.
Qed.

Lemma run_prices_dom sched c :
  dom (prices (cache c)) ⊆ dom (prices (cache (run sched c))).
Proof.
  revert c. induction sched as [|i sched IH]; intros c; simpl; [done|].
  destruct (step c i) as [c'|] eqn:Hstep; simpl; [|done].
  etrans; [by eapply step_prices_dom|done].
Qed.

(** A goroutine parked at a send, or arriving there, after the coordinator
    has returned panics at its next move. *)
Lemma send_after_return_panics c i g rs err :
  coord c = Returned rs err →
  goroutines c !! i = Some g →
  at_send g →
  ∃ c', step c i = Some c' ∧ goroutines c' !! i = Some (GPanic (gcode g)).
Proof.
  intros Hret Hg Hat. unfold step. rewrite Hg, Hret.
  destruct g; try done;
    eexists; (split; [done|]); simpl;
    apply list_lookup_insert_eq; by eapply lookup_lt_Some.
Qed.

(** C1, as the code has it.  When [GetPricesFor] succeeds, every key has
    been resolved to a value, one per occurrence and in key order in the
    goroutines, and the returned sequence holds exactly these values, each
    appended when its pair is received: a permutation of the values in key
    order, in order of arrival. *)
Theorem GetPricesFor_values_in_arrival_order s codes :
  (∀ sched rs,
     coord (run sched (GetPricesFor codes s)) = Returned rs None →
     ∃ values,
       goroutines (run sched (GetPricesFor codes s)) = zip_with GDone codes values ∧
       length values = length codes ∧
       rs ≡ₚ values) ∧
  (∀ c i code price rs,
     coord c = Selecting rs →
     goroutines c !! i = Some (GSendHit code price) ∨
     goroutines c !! i = Some (GSendRes code price) →
     ∃ c', step c i = Some c' ∧
           goroutines c' !! i = Some (GDone code price) ∧
           results_of (coord c') = rs ++ [price]).
Proof.
  split.
  - intros sched rs Hret.
    pose proof (run_batch_inv s sched _ (GetPricesFor_batch_inv s codes))
      as [Hcodes (new & _ & Hk)].
    rewrite Hret in Hk. destruct Hk as (Hperm & Hall & _).
    apply all_delivered_zip in Hall as [Hzip Hlen].
    exists (omap delivered (goroutines (run sched (GetPricesFor codes s)))).
    rewrite run_itemCodes in Hcodes. simpl in Hcodes.
    rewrite Hcodes in Hzip. split; [done|]. split; [|done].
    rewrite Hlen. apply (f_equal length) in Hcodes.
    by rewrite length_fmap in Hcodes.
  - intros c i code price rs Hsel Hg. unfold step.
    assert (∀ g, goroutines c !! i = Some g →
                 (i < length (goroutines c))%nat) as Hlt
      by (intros; by eapply lookup_lt_Some).
    destruct Hg as [Hg|Hg]; rewrite Hg, Hsel;
      destruct (recvResult _ _ _ _ _) as [k s'] eqn:Hrecv;
      apply recvResult_spec in Hrecv as (_ & _ & ->);
      (eexists; split; [done|]; simpl; split;
       [apply list_lookup_insert_eq; eauto|by destruct (_ =? _)%nat]).
Qed.

(** C3, on the code.  With no item code nothing is ever sent to the
    coordinator: under every schedule it stays in its [select] with the
    result still nil, no goroutine exists that could wake it, and the
    collaborator is not invoked.  [GetPricesFor()] does not return. *)
Theorem GetPricesFor_no_keys_never_returns s sched :
  run sched (GetPricesFor [] s) = GetPricesFor [] s ∧
  coord (run sched (GetPricesFor [] s)) = Selecting [] ∧
  terminal (run sched (GetPricesFor [] s)) ∧
  calls (cache (run sched (GetPricesFor [] s))) = calls s.
Proof.
  assert (run sched (GetPricesFor [] s) = GetPricesFor [] s) as ->
    by (induction sched as [|i sched IH]; simpl; [done|exact IH]).
  by repeat split.
Qed.

Lemma GetPriceFor_purging_dom s itemCode :
  dom (prices s) ∖ {[itemCode]} ⊆ dom (prices (GetPriceFor_purging itemCode s).2).
Proof.
  unfold GetPriceFor_purging, fetchAndStore, IsExpired, planExpiration, callService,
    time_Now_UnixNano, time_Now_Add_UnixNano, storePrice, deletePrice, getPrices,
    getMaxAge, bind, ret; simpl.
  destruct (prices s !! itemCode) as [item|]; simpl.
  - destruct (_ >? _); simpl; [|by apply subseteq_difference_l].
    destruct (ServiceGetPriceFor _ _) as [svc' [price [err|]]]; simpl.
    + by rewrite dom_delete_L.
    + rewrite dom_insert_L, dom_delete_L. apply union_subseteq_r.
  - destruct (ServiceGetPriceFor _ _) as [svc' [price [err|]]]; simpl.
    + by apply subseteq_difference_l.
    + rewrite dom_insert_L. etrans; [|apply union_subseteq_r].
      by apply subseteq_difference_l.
Qed.

(** C8, as the code has it.  In cache.go no key ever leaves the store:
    the key set after [GetPriceFor], and at every point of a [GetPricesFor]
    batch, includes the key set before.  The variant of [GetPriceFor] that
    purges expired entries keeps every key other than the one asked for. *)
Theorem key_set_grows :
  (∀ s itemCode,
     dom (prices s) ⊆ dom (prices (GetPriceFor itemCode s).2)) ∧
  (∀ s codes sched,
     dom (prices s) ⊆ dom (prices (cache (run sched (GetPricesFor codes s))))) ∧
  (∀ s itemCode,
     dom (prices s) ∖ {[itemCode]} ⊆ dom (prices (GetPriceFor_purging itemCode s).2)).
Proof.
  split; [|split].
  - intros s itemCode. pose proof (GetPriceFor_outcome s itemCode) as Ho.
    inversion Ho as [| |svc' price t Hsvc Hmiss Hr Hs]; simpl; [done..|].
    rewrite dom_insert_L. apply union_subseteq_r.
  - intros s codes sched. apply (run_prices_dom sched (GetPricesFor codes s)).
  - apply GetPriceFor_purging_dom.
Qed.

End Batch.

(** ** Single-item retrieval: further properties *)

Section SingleMore.
Context {S : Type} `{!PriceService S}.
Implicit Types (s : state S) (itemCode : string).

Ltac by_outcome H :=
  apply GetPriceFor_inv in H; inversion H; subst; clear H;
  cbn [fst snd calls prices tick clock maxAge actualPriceService self] in *;
  repeat match goal with
  | H : ?l = ?l ++ [_] |- _ => symmetry in H; apply snoc_neq in H; destruct H
  | H : ?l ++ [_] = ?l |- _ => apply snoc_neq in H; destruct H
  | H : ?l ++ [_] = ?l ++ [_] |- _ => apply app_inv_head in H; simplify_eq
  end.

(** X1.  Whenever [GetPriceFor] returns without error, the store holds the
    returned price under the requested key afterwards, be it an entry that
    was served or one that was just written. *)
Theorem GetPriceFor_success_is_cached s itemCode price s' :
  GetPriceFor itemCode s = ((price, None), s') →
  ∃ item, prices s' !! itemCode = Some item ∧ Price item = price.
Proof.
  intros Hcall. by_outcome Hcall.
  - by eexists.
  - eexists. split; [apply lookup_insert_eq|done].
Qed.

(** X2.  [GetPriceFor] touches no entry but the one of the requested key:
    every other key maps to what it mapped to before, in cache.go and in
    the variant that purges expired entries alike. *)
Theorem GetPriceFor_keeps_other_keys s itemCode other :
  other ≠ itemCode →
  prices (GetPriceFor itemCode s).2 !! other = prices s !! other ∧
  prices (GetPriceFor_purging itemCode s).2 !! other = prices s !! other.
Proof.
  intros Hne. split.
  - pose proof (GetPriceFor_outcome s itemCode) as Ho.
    inversion Ho; simpl; [done..|]. by apply lookup_insert_ne.
  - unfold GetPriceFor_purging, fetchAndStore, IsExpired, planExpiration, callService,
      time_Now_UnixNano, time_Now_Add_UnixNano, storePrice, deletePrice, getPrices,
      getMaxAge, bind, ret; simpl.
    destruct (prices s !! itemCode) as [item|]; simpl.
    + destruct (_ >? _); simpl; [|done].
      destruct (ServiceGetPriceFor _ _) as [svc' [price [err|]]]; simpl.
      * by apply lookup_delete_ne.
      * rewrite lookup_insert_ne by done. by apply lookup_delete_ne.
    + destruct (ServiceGetPriceFor _ _) as [svc' [price [err|]]]; simpl; [done|].
      by apply lookup_insert_ne.
Qed.

Lemma miss_delegates_to_collaborator s itemCode r s' svc' price err :
  prices s !! itemCode = None ∨
  (∃ item, prices s !! itemCode = Some item ∧ now s > Expiration item) →
  ServiceGetPriceFor (actualPriceService s) itemCode = (svc', (price, err)) →
  GetPriceFor itemCode s = (r, s') →
  calls s' = calls s ++ [(itemCode, (price, err))] ∧
  actualPriceService s' = svc' ∧
  r = match err with
      | None => (price, None)
      | Some msg => (0%float, Some (wrapError msg))
      end.
Proof.
  intros Hmiss Hsvc Hcall. by_outcome Hcall.
  - destruct Hmiss as [?|(item' & ? & ?)]; simplify_eq. lia.
  - rewrite Hsvc in *. by simplify_eq.
  - rewrite Hsvc in *. by simplify_eq.
Qed.

(** X3.  When the key is absent, or present with the clock past its
    expiration instant, [GetPriceFor] asks the collaborator exactly once,
    for that key; a price is returned as it came, a failure as the number 0
    with the collaborator's message behind "getting item from service : ". *)
Theorem GetPriceFor_miss_asks_once s itemCode r s' svc' price err :
  prices s !! itemCode = None ∨
  (∃ item, prices s !! itemCode = Some item ∧ now s > Expiration item) →
  ServiceGetPriceFor (actualPriceService s) itemCode = (svc', (price, err)) →
  GetPriceFor itemCode s = (r, s') →
  calls s' = calls s ++ [(itemCode, (price, err))] ∧
  actualPriceService s' = svc' ∧
  r = match err with
      | None => (price, None)
      | Some msg => (0%float, Some (String.append "getting item from service : " msg))
      end.
Proof. apply miss_delegates_to_collaborator. Qed.

(** X4.  After a call that fetched a price, a second call for the same key
    made once more than [maxAge] has elapsed since the fetch asks the
    collaborator again, exactly once, and returns what it answers now (the
    two [UnixNano()] values being in the [int64] range). *)
Theorem GetPriceFor_refetches_after_maxAge s itemCode price s1 r s2 :
  GetPriceFor itemCode s = ((price, None), s1) →
  calls s1 = calls s ++ [(itemCode, (price, None))] →
  in_int64 (clock s (pred (tick s1)) + maxAge s) →
  in_int64 (clock s1 (tick s1)) →
  clock s1 (tick s1) - clock s (pred (tick s1)) > maxAge s →
  GetPriceFor itemCode s1 = (r, s2) →
  ∃ answer,
    ServiceGetPriceFor (actualPriceService s1) itemCode = (actualPriceService s2, answer) ∧
    calls s2 = calls s1 ++ [(itemCode, answer)] ∧
    (answer.2 = None → r = (answer.1, None)).
Proof.
  intros Hfirst Hlog Hexp Hask Hlater Hsecond. by_outcome Hfirst.
  destruct (ServiceGetPriceFor svc' itemCode) as [svc2 [price2 err2]] eqn:Hsvc.
  eapply (miss_delegates_to_collaborator _ itemCode) in Hsecond as (Hc & Hs & Hr);
    [| |exact Hsvc].
  - exists (price2, err2). simpl in *. rewrite Hs. split; [done|]. split; [done|].
    intros ->. done.
  - right. eexists. split; [apply lookup_insert_eq|].
    unfold now. simpl in *. rewrite !int64_wrap_id by done. lia.
Qed.

(** X5.  A cache made by [NewTransparentCache] holds nothing, so the first
    request, for whatever key, goes to the collaborator; when that answers
    with a price the store holds exactly this key, expiring [maxAge] after
    the first clock reading, and when it fails the store is still empty. *)
Theorem NewTransparentCache_first_request (svc : S) (age : Z) (clk : nat → Z) itemCode :
  let s := NewTransparentCache svc age clk in
  let answer := (ServiceGetPriceFor svc itemCode).2 in
  prices s = ∅ ∧
  calls (GetPriceFor itemCode s).2 = [(itemCode, answer)] ∧
  (answer.2 = None →
   (GetPriceFor itemCode s).1 = (answer.1, None) ∧
   prices (GetPriceFor itemCode s).2 =
     {[itemCode := mkItem answer.1 (int64_wrap (clk 0%nat + age))]}) ∧
  (is_Some answer.2 → prices (GetPriceFor itemCode s).2 = ∅).
Proof.
  intros s answer. subst s answer. split; [done|].
  unfold GetPriceFor, fetchAndStore, planExpiration, callService,
    time_Now_Add_UnixNano, storePrice, getPrices, getMaxAge, bind, ret; simpl.
  rewrite lookup_empty. simpl.
  destruct (ServiceGetPriceFor svc itemCode) as [svc' [price [err|]]]; simpl.
  - split; [done|]. split; [done|]. done.
  - split; [done|]. split; [done|]. by intros [? [=]].
Qed.

(** X6.  The variant of [GetPriceFor] that purges expired entries returns
    the same result as the one of cache.go, after the same collaborator
    calls and clock readings; the stores agree whenever no error is
    returned, and on an error the purging variant is left with the old
    store without the requested key. *)
Theorem GetPriceFor_purging_agrees s itemCode :
  (GetPriceFor_purging itemCode s).1 = (GetPriceFor itemCode s).1 ∧
  calls (GetPriceFor_purging itemCode s).2 = calls (GetPriceFor itemCode s).2 ∧
  tick (GetPriceFor_purging itemCode s).2 = tick (GetPriceFor itemCode s).2 ∧
  actualPriceService (GetPriceFor_purging itemCode s).2 =
    actualPriceService (GetPriceFor itemCode s).2 ∧
  prices (GetPriceFor_purging itemCode s).2 =
    match (GetPriceFor itemCode s).1.2 with
    | None => prices (GetPriceFor itemCode s).2
    | Some _ => delete itemCode (prices s)
    end.
Proof.
  unfold GetPriceFor_purging, GetPriceFor, fetchAndStore, IsExpired, planExpiration,
    callService, time_Now_UnixNano, time_Now_Add_UnixNano, storePrice, deletePrice,
    getPrices, getMaxAge, bind, ret; simpl.
  destruct (prices s !! itemCode) as [item|] eqn:Hlook; simpl.
  - destruct (_ >? _); simpl; [|done].
    destruct (ServiceGetPriceFor _ _) as [svc' [price [err|]]]; simpl; [done|].
    repeat split. apply insert_delete_eq.
  - destruct (ServiceGetPriceFor _ _) as [svc' [price [err|]]]; simpl; [|done].
    repeat split. symmetry. by apply delete_id.
Qed.

(** X19.  An entry planned to expire after [duration] is reported expired at
    the next clock reading exactly when more than [duration] has elapsed
    between the two readings (both [UnixNano()] values in the [int64]
    range). *)
Theorem planExpiration_then_IsExpired s (duration : Z) (price : float) :
  in_int64 (clock s (tick s) + duration) →
  in_int64 (clock s (Datatypes.S (tick s))) →
  (IsExpired (mkItem price (planExpiration duration s).1) (planExpiration duration s).2).1 =
    (clock s (Datatypes.S (tick s)) - clock s (tick s) >? duration).
Proof.
  intros Hexp Hnow.
  unfold IsExpired, planExpiration, time_Now_Add_UnixNano, time_Now_UnixNano, bind, ret.
  simpl. rewrite !int64_wrap_id by done.
  destruct (Z.gtb_spec (clock s (Datatypes.S (tick s))) (clock s (tick s) + duration)),
    (Z.gtb_spec (clock s (Datatypes.S (tick s)) - clock s (tick s)) duration);
    (done || lia).
Qed.

End SingleMore.

(** ** Batch retrieval: further properties *)

Lemma elem_of_insert_inv {A} (l : list A) i x y :
  x ∈ <[i := y]> l → x = y ∨ x ∈ l.
Proof.
  intros [j Hj]%list_elem_of_lookup.
  destruct (decide (i = j)) as [->|Hne].
  - left. apply lookup_lt_Some in Hj as Hlt. rewrite length_insert in Hlt.
    rewrite list_lookup_insert_eq in Hj by done. by simplify_eq.
  - right. rewrite list_lookup_insert_ne in Hj by done.
    apply list_elem_of_lookup. by exists j.
Qed.

Lemma elem_of_insert_keep {A} (l : list A) i x y z :
  x ∈ l → l !! i = Some y → x ≠ y → x ∈ <[i := z]> l.
Proof.
  intros [j Hj]%list_elem_of_lookup Hi Hne.
  apply list_elem_of_lookup. exists j.
  rewrite list_lookup_insert_ne; [done|]. intros ->. by simplify_eq.
Qed.

Lemma elem_of_insert_new {A} (l : list A) i y z :
  l !! i = Some y → z ∈ <[i := z]> l.
Proof.
  intros Hi. apply list_elem_of_lookup. exists i.
  apply list_lookup_insert_eq. by eapply lookup_lt_Some.
Qed.

Section BatchMore.
Context {S : Type} `{!PriceService S}.
Implicit Types (s : state S) (c : config S) (g : goroutine) (code : string).

Lemma calls_since_app s0 s new :
  calls s = calls s0 ++ new → calls_since s0 s = new.
Proof. intros Hlog. unfold calls_since. by rewrite Hlog, drop_app_length. Qed.

Lemma goroutine_code_requested c i g :
  gcode <$> goroutines c = itemCodes c →
  goroutines c !! i = Some g → gcode g ∈ itemCodes c.
Proof.
  intros <- Hg. apply list_elem_of_lookup. exists i.
  by rewrite list_lookup_fmap, Hg.
Qed.

Lemma step_batch_inv_calls s0 c i c' :
  batch_inv s0 c → batch_inv_calls s0 c → step c i = Some c' →
  batch_inv_calls s0 c'.
Proof.
  intros [Hcodes (new & Hlog & _)] [Hcount Hkeys] Hstep%step_moved.
  rewrite (calls_since_app _ _ _ Hlog) in Hcount, Hkeys.
  unfold batch_inv_calls, call in *.
  inversion Hstep as [code g' s' Hg Hgo|code g' s' Hg Hgo|code price err rs Hg Hsel
                     |g code price rs k s' Hg Hsend Hsel Hrecv|g rs err Hg Hat Hret];
    subst; simpl; rewrite length_insert;
    match goal with
    | |- context [sum_list_with _ (<[_ := ?y]> _)] =>
        pose proof (sum_list_with_insert before_call _ _ _ y Hg) as Hsum
    end; simpl in Hsum.
  - apply goStart_spec in Hgo as (Hcalls & _ & Hg').
    rewrite (calls_since_app s0 s' new) by (by rewrite Hcalls).
    split; [|done]. destruct Hg' as [->|[price ->]]; simpl in Hsum; lia.
  - apply goFetch_spec in Hgo as (_ & price & Hg').
    pose proof (goroutine_code_requested _ _ _ Hcodes Hg) as Hin. simpl in Hin.
    destruct Hg' as [[-> Hcalls]|(err & -> & Hcalls)];
      rewrite (calls_since_app s0 s' (new ++ [_]))
        by (by rewrite Hcalls, Hlog, (assoc_L (++)));
      (split; [rewrite length_app; simpl in *; lia|]);
      (apply Forall_app; split; [done|by apply Forall_singleton]).
  - rewrite (calls_since_app s0 _ new) by done. split; [lia|done].
  - apply recvResult_spec in Hrecv as (Hcalls & _ & _).
    rewrite (calls_since_app s0 s' new) by (by rewrite Hcalls).
    split; [|done]. destruct Hsend as [->| ->]; simpl in Hsum; lia.
  - rewrite (calls_since_app s0 _ new) by done.
    split; [|done]. destruct g; try done; simpl in *; lia.
Qed.

Lemma step_batch_inv_errors s0 c i c' :
  batch_inv s0 c → batch_inv_errors s0 c → step c i = Some c' →
  batch_inv_errors s0 c'.
Proof.
  intros [Hcodes (new & Hlog & _)] [Hflight Hret0] Hstep%step_moved.
  rewrite (calls_since_app _ _ _ Hlog) in Hflight, Hret0.
  unfold batch_inv_errors.
  inversion Hstep as [code g' s' Hg Hgo|code g' s' Hg Hgo|code price err rs Hg Hsel
                     |g code price rs k s' Hg Hsend Hsel Hrecv|g rs err Hg Hat Hret];
    subst; simpl.
  - apply goStart_spec in Hgo as (Hcalls & _ & Hg').
    rewrite (calls_since_app s0 s' new) by (by rewrite Hcalls).
    split; [|done]. intros code' price' err' [Heq|Hin]%elem_of_insert_inv; [|eauto].
    destruct Hg' as [?|[? ?]]; congruence.
  - apply goFetch_spec in Hgo as (_ & price & Hg').
    destruct Hg' as [[-> Hcalls]|(err & -> & Hcalls)];
      rewrite (calls_since_app s0 s' (new ++ [_]))
        by (by rewrite Hcalls, Hlog, (assoc_L (++))).
    + split.
      * intros code' price' err' [?|Hin]%elem_of_insert_inv; [done|].
        apply elem_of_app. left. eauto.
      * intros rs err Hret. destruct (Hret0 rs err Hret) as (k & p & ? & ?).
        exists k, p. split; [done|]. apply elem_of_app. by left.
    + split.
      * intros code' price' err' [?|Hin]%elem_of_insert_inv; apply elem_of_app.
        -- right. simplify_eq. by apply list_elem_of_singleton.
        -- left. eauto.
      * intros rs err' Hret. destruct (Hret0 rs err' Hret) as (k & p & ? & ?).
        exists k, p. split; [done|]. apply elem_of_app. by left.
  - rewrite (calls_since_app s0 _ new) by done. split.
    + intros code' price' err' [?|Hin]%elem_of_insert_inv; [done|eauto].
    + intros rs' err' [= <- <-]. exists code, price. split.
      * apply (goroutine_code_requested _ _ _ Hcodes Hg).
      * apply Hflight. apply list_elem_of_lookup. by exists i.
  - apply recvResult_spec in Hrecv as (Hcalls & _ & ->).
    rewrite (calls_since_app s0 s' new) by (by rewrite Hcalls). split.
    + intros code' price' err' [?|Hin]%elem_of_insert_inv; [done|eauto].
    + intros rs' err'. by destruct (_ =? _)%nat.
  - rewrite (calls_since_app s0 _ new) by done. split; [|done].
    intros code' price' err' [?|Hin]%elem_of_insert_inv; [done|eauto].
Qed.

Lemma step_batch_inv_cached c i c' :
  batch_inv_cached c → step c i = Some c' → batch_inv_cached c'.
Proof.
  intros Hcached Hstep%step_moved. unfold batch_inv_cached.
  assert (∀ g g' s' k,
    goroutines c !! i = Some g → delivered g = None → delivered g' = None →
    prices s' = prices (cache c) →
    ∀ code price, GDone code price ∈ <[i := g']> (goroutines c) →
      ∃ item, prices s' !! code = Some item ∧
              GDone code (Price item) ∈ goroutines (resume c i g' s' k)) as Hkeep.
  { intros g g' s' k Hg Hnone Hnone' -> code price [<-|Hin]%elem_of_insert_inv; [done|].
    destruct (Hcached code price Hin) as (item & Hitem & Hdone).
    exists item. split; [done|]. simpl.
    eapply elem_of_insert_keep; [done..|]. intros <-. done. }
  inversion Hstep as [code g' s' Hg Hgo|code g' s' Hg Hgo|code price err rs Hg Hsel
                     |g code price rs k s' Hg Hsend Hsel Hrecv|g rs err Hg Hat Hret];
    subst.
  - apply goStart_spec in Hgo as (_ & Hprices & Hg').
    eapply Hkeep; [done..| |done]. by destruct Hg' as [->|[? ->]].
  - apply goFetch_spec in Hgo as (Hprices & price & Hg').
    eapply Hkeep; [done..| |done]. by destruct Hg' as [[-> _]|(? & -> & _)].
  - by eapply Hkeep.
  - apply recvResult_spec in Hrecv as (_ & Hprices & _). simpl.
    assert (delivered g = None) as Hnone by (by destruct Hsend as [->| ->]).
    intros code' price' Hin. destruct (decide (code' = code)) as [->|Hne].
    + eexists. rewrite Hprices. split; [apply lookup_insert_eq|]. simpl.
      by eapply elem_of_insert_new.
    + apply elem_of_insert_inv in Hin as [?|Hin]; [congruence|].
      destruct (Hcached code' price' Hin) as (item & Hitem & Hdone).
      exists item. rewrite Hprices, lookup_insert_ne by done. split; [done|].
      eapply elem_of_insert_keep; [done..|]. intros <-. done.
  - eapply Hkeep; [done| |done..]. by destruct g.
Qed.

Lemma step_batch_inv_progress c i c' :
  gcode <$> goroutines c = itemCodes c →
  batch_inv_progress c → step c i = Some c' → batch_inv_progress c'.
Proof.
  intros Hcodes Hprog Hstep%step_moved. unfold batch_inv_progress.
  assert (∀ g' s' rs,
    coord c = Selecting rs → (∀ code, g' ≠ GPanic code) →
    Forall (λ g, ∀ code, g ≠ GPanic code) (<[i := g']> (goroutines c)) ∧
    (<[i := g']> (goroutines c) = [] ∨
     (length rs < length (<[i := g']> (goroutines c)))%nat)) as Hkeep.
  { intros g' s' rs Hsel Hg'. destruct (Hprog rs Hsel) as [Hnopanic Hless].
    split.
    - apply Forall_forall. intros g [->|Hin]%elem_of_insert_inv; [done|].
      by eapply Forall_forall in Hnopanic.
    - rewrite length_insert. destruct Hless as [Hnil|Hlt]; [|by right].
      left. by rewrite Hnil. }
  inversion Hstep as [code g' s' Hg Hgo|code g' s' Hg Hgo|code price err rs Hg Hsel
                     |g code price rs k s' Hg Hsend Hsel Hrecv|g rs err Hg Hat Hret];
    subst; simpl.
  - apply goStart_spec in Hgo as (_ & _ & Hg'). intros rs Hsel.
    apply (Hkeep g' s' rs Hsel). by destruct Hg' as [->|[? ->]].
  - apply goFetch_spec in Hgo as (_ & price & Hg'). intros rs Hsel.
    apply (Hkeep g' s' rs Hsel). by destruct Hg' as [[-> _]|(? & -> & _)].
  - done.
  - apply recvResult_spec in Hrecv as (_ & _ & ->). intros rs'.
    destruct (Nat.eqb_spec (length (rs ++ [price])) (length (itemCodes c)))
      as [|Hne]; [done|].
    intros [= <-]. destruct (Hkeep (GDone code price) s' rs Hsel) as [Hnopanic Hless];
      [done|].
    split; [done|]. right. rewrite length_insert in *.
    apply (f_equal length) in Hcodes. rewrite length_fmap in Hcodes.
    rewrite length_app in *. simpl in *.
    destruct Hless as [Hnil|Hlt]; [|lia].
    apply (f_equal length) in Hnil. rewrite length_insert in Hnil.
    apply lookup_lt_Some in Hg. simpl in Hnil. lia.
  - intros rs'. rewrite Hret. done.
Qed.

Lemma step_batch_inv_frame s0 c i c' :
  gcode <$> goroutines c = itemCodes c →
  batch_inv_frame s0 c → step c i = Some c' → batch_inv_frame s0 c'.
Proof.
  intros Hcodes Hframe Hstep%step_moved. unfold batch_inv_frame.
  inversion Hstep as [code g' s' Hg Hgo|code g' s' Hg Hgo|code price err rs Hg Hsel
                     |g code price rs k s' Hg Hsend Hsel Hrecv|g rs err Hg Hat Hret];
    subst; simpl; [| |done| |done].
  - apply goStart_spec in Hgo as (_ & -> & _). done.
  - apply goFetch_spec in Hgo as (-> & _). done.
  - apply recvResult_spec in Hrecv as (_ & -> & _). intros k' Hk'.
    pose proof (goroutine_code_requested _ _ _ Hcodes Hg) as Hin.
    assert (gcode g = code) as Hcode by (by destruct Hsend as [->| ->]).
    rewrite lookup_insert_ne; [by apply Hframe|]. intros <-. congruence.
Qed.

(** All of the above along a run of a batch. *)
Lemma run_batch_inv_more s0 sched c :
  batch_inv s0 c →
  batch_inv_calls s0 c ∧ batch_inv_errors s0 c ∧ batch_inv_cached c ∧
  batch_inv_progress c ∧ batch_inv_frame s0 c →
  batch_inv_calls s0 (run sched c) ∧ batch_inv_errors s0 (run sched c) ∧
  batch_inv_cached (run sched c) ∧ batch_inv_progress (run sched c) ∧
  batch_inv_frame s0 (run sched c).
Proof.
  revert c. induction sched as [|i sched IH]; intros c Hinv Hmore; simpl; [done|].
  destruct (step c i) as [c'|] eqn:Hstep; simpl; [|by apply IH].
  destruct Hmore as (? & ? & ? & ? & ?). pose proof Hinv as [Hcodes _].
  apply IH; [by eapply step_batch_inv|].
  eauto 10 using step_batch_inv_calls, step_batch_inv_errors, step_batch_inv_cached,
    step_batch_inv_progress, step_batch_inv_frame.
Qed.

Lemma GetPricesFor_batch_inv_more s codes :
  let c := GetPricesFor codes s in
  batch_inv_calls s c ∧ batch_inv_errors s c ∧ batch_inv_cached c ∧
  batch_inv_progress c ∧ batch_inv_frame s c.
Proof.
  assert (∀ g, g ∈ GStart <$> codes → ∃ code, g = GStart code) as Hstart.
  { intros g (code & -> & _)%list_elem_of_fmap. by exists code. }
  simpl. split; [|split; [|split; [|split]]].
  - unfold batch_inv_calls, calls_since. simpl. rewrite drop_all. simpl.
    split; [|done]. clear. induction codes as [|k codes IH]; csimpl in *; lia.
  - split.
    + intros code price err (? & [=])%Hstart.
    + by intros rs err.
  - intros code price (? & [=])%Hstart.
  - intros rs [= <-]. simpl. split.
    + apply Forall_forall. intros g (? & ->)%Hstart. done.
    + destruct codes; [by left|right; simpl; lia].
  - by intros k.
Qed.

Lemma batch_invariants s codes sched :
  let c := run sched (GetPricesFor codes s) in
  itemCodes c = codes ∧ batch_inv s c ∧
  batch_inv_calls s c ∧ batch_inv_errors s c ∧ batch_inv_cached c ∧
  batch_inv_progress c ∧ batch_inv_frame s c.
Proof.
  intros c. split; [apply run_itemCodes|].
  split; [apply run_batch_inv, GetPricesFor_batch_inv|].
  apply run_batch_inv_more;
    [apply GetPricesFor_batch_inv|apply GetPricesFor_batch_inv_more].
Qed.

Lemma terminal_all_stopped c :
  terminal c → Forall (λ g, moves_left g = 0%nat) (goroutines c).
Proof.
  intros Hterm. apply Forall_lookup. intros i g Hg.
  destruct (decide (moves_left g = 0%nat)) as [|Hleft]; [done|].
  destruct (step_enabled c i g Hg) as [c' Hstep]; [lia|].
  by rewrite Hterm in Hstep.
Qed.

(** X7.  The error that [GetPricesFor] returns is the error of one of its
    own collaborator calls, for a requested key, handed on as it came
    (without the text that [GetPriceFor] puts in front), and it comes with
    no values. *)
Theorem GetPricesFor_error_is_the_collaborators s codes sched rs err :
  coord (run sched (GetPricesFor codes s)) = Returned rs (Some err) →
  rs = [] ∧
  ∃ code price,
    code ∈ codes ∧
    (code, (price, Some err)) ∈ calls_since s (cache (run sched (GetPricesFor codes s))).
Proof.
  intros Hret.
  destruct (batch_invariants s codes sched)
    as (Hcodes & [_ (new & _ & Hk)] & _ & [_ Herr] & _).
  rewrite Hret in Hk. split; [done|].
  destruct (Herr rs err Hret) as (code & price & Hin & Hcall).
  exists code, price. by rewrite Hcodes in Hin.
Qed.

(** X8.  When [GetPricesFor] returns values, none of its collaborator calls
    has failed and every requested key is in the store, with a price that
    is among the values returned. *)
Theorem GetPricesFor_success_caches_every_key s codes sched rs :
  coord (run sched (GetPricesFor codes s)) = Returned rs None →
  ¬ Exists failed (calls_since s (cache (run sched (GetPricesFor codes s)))) ∧
  ∀ k, k ∈ codes →
       ∃ item, prices (cache (run sched (GetPricesFor codes s))) !! k = Some item ∧
               Price item ∈ rs.
Proof.
  intros Hret.
  destruct (batch_invariants s codes sched)
    as (Hcodes & [Hgcodes (new & Hlog & Hk)] & _ & _ & Hcached & _).
  rewrite Hret in Hk. destruct Hk as (Hperm & Hall & Hnofail).
  split; [by rewrite (calls_since_app _ _ _ Hlog)|].
  intros k Hk. rewrite <- Hcodes, <- Hgcodes in Hk.
  apply list_elem_of_fmap in Hk as (g & -> & Hg).
  assert (∃ price, g = GDone (gcode g) price) as [price Hdone].
  { eapply Forall_forall in Hall; [|done]. destruct Hall as [price Hprice].
    exists price. by destruct g; simplify_eq/=. }
  rewrite Hdone in Hg. destruct (Hcached _ _ Hg) as (item & Hitem & Hin).
  exists item. split; [done|]. rewrite Hperm.
  apply list_elem_of_omap. by exists (GDone (gcode g) (Price item)).
Qed.

Lemma calls_for_snoc k (l : list call) code r :
  calls_for k (l ++ [(code, r)]) =
  (calls_for k l + if decide (code = k) then 1 else 0)%nat.
Proof.
  unfold calls_for. rewrite filter_app, length_app. f_equal.
  rewrite filter_cons, filter_nil. simpl. by destruct (decide (code = k)).
Qed.

Lemma is_for_occurrences k (gs : list goroutine) :
  sum_list_with (is_for k) gs = occurrences k (gcode <$> gs).
Proof.
  unfold occurrences. induction gs as [|g gs IH]; csimpl; [done|].
  rewrite filter_cons, IH. unfold is_for. by destruct (decide (gcode g = k)).
Qed.

(** A move that keeps the goroutine's code and does not make up for a call
    it logs keeps the count. *)
Lemma batch_inv_calls_for_move k (gs : list goroutine) i g g' (n n' : nat) :
  gs !! i = Some g → gcode g' = gcode g →
  (n' + before_call_for k g' ≤ n + before_call_for k g)%nat →
  (n + sum_list_with (before_call_for k) gs ≤ sum_list_with (is_for k) gs)%nat →
  (n' + sum_list_with (before_call_for k) (<[i := g']> gs)
   ≤ sum_list_with (is_for k) (<[i := g']> gs))%nat.
Proof.
  intros Hg Hcode Hmove Hinv.
  pose proof (sum_list_with_insert (before_call_for k) gs i g g' Hg) as Hb.
  pose proof (sum_list_with_insert (is_for k) gs i g g' Hg) as Hf.
  assert (is_for k g' = is_for k g) as Hsame by (unfold is_for; by rewrite Hcode).
  lia.
Qed.

Lemma step_batch_inv_calls_for s0 c i c' :
  batch_inv s0 c → batch_inv_calls_for s0 c → step c i = Some c' →
  batch_inv_calls_for s0 c'.
Proof.
  intros [Hcodes (new & Hlog & _)] Hcount Hstep%step_moved k.
  specialize (Hcount k). rewrite (calls_since_app _ _ _ Hlog) in Hcount.
  inversion Hstep as [code g' s' Hg Hgo|code g' s' Hg Hgo|code price err rs Hg Hsel
                     |g code price rs k0 s' Hg Hsend Hsel Hrecv|g rs err Hg Hat Hret];
    subst; simpl.
  - apply goStart_spec in Hgo as (Hcalls & _ & Hg').
    rewrite (calls_since_app s0 s' new) by (by rewrite Hcalls).
    eapply batch_inv_calls_for_move; [done| | |done];
      destruct Hg' as [->|[price ->]]; try done;
      unfold before_call_for; simpl; destruct (decide (code = k)); lia.
  - apply goFetch_spec in Hgo as (_ & price & Hg').
    destruct Hg' as [[-> Hcalls]|(err & -> & Hcalls)];
      rewrite (calls_since_app s0 s' (new ++ [_]))
        by (by rewrite Hcalls, Hlog, (assoc_L (++)));
      rewrite calls_for_snoc;
      (eapply batch_inv_calls_for_move; [done|done| |done]);
      unfold before_call_for; simpl; destruct (decide (code = k)); lia.
  - rewrite (calls_since_app s0 _ new) by done.
    eapply batch_inv_calls_for_move; [done|done| |done].
    unfold before_call_for; simpl; destruct (decide (code = k)); lia.
  - apply recvResult_spec in Hrecv as (Hcalls & _ & _).
    rewrite (calls_since_app s0 s' new) by (by rewrite Hcalls).
    eapply batch_inv_calls_for_move; [done| | |done];
      destruct Hsend as [->| ->]; try done;
      unfold before_call_for; simpl; destruct (decide (code = k)); lia.
  - rewrite (calls_since_app s0 _ new) by done.
    eapply batch_inv_calls_for_move; [done|done| |done].
    destruct g; try done; unfold before_call_for; simpl;
      destruct (decide (code = k)); lia.
Qed.

Lemma run_batch_inv_calls_for s0 sched c :
  batch_inv s0 c → batch_inv_calls_for s0 c →
  batch_inv_calls_for s0 (run sched c).
Proof.
  revert c. induction sched as [|i sched IH]; intros c Hinv Hcount; simpl; [done|].
  destruct (step c i) as [c'|] eqn:Hstep; simpl; [|by apply IH].
  apply IH; [by eapply step_batch_inv|by eapply step_batch_inv_calls_for].
Qed.

Lemma GetPricesFor_batch_inv_calls_for s codes :
  batch_inv_calls_for s (GetPricesFor codes s).
Proof.
  intros k. unfold calls_since, calls_for. simpl. rewrite drop_all. simpl.
  induction codes as [|code codes IH]; csimpl; [done|].
  unfold before_call_for, is_for in *. simpl. destruct (decide (code = k)); lia.
Qed.

(** X9.  Under every schedule a batch asks the collaborator for a key at
    most as often as the key occurs among the requested codes: at most once
    per requested key occurrence, and never for a key that was not
    requested. *)
Theorem GetPricesFor_calls_bounded s codes sched :
  (∀ k, (calls_for k (calls_since s (cache (run sched (GetPricesFor codes s))))
         ≤ occurrences k codes)%nat) ∧
  Forall (λ cl : call, cl.1 ∈ codes)
         (calls_since s (cache (run sched (GetPricesFor codes s)))).
Proof.
  destruct (batch_invariants s codes sched)
    as (Hcodes & [Hgcodes _] & [_ Hkeys] & _).
  rewrite Hcodes in Hkeys, Hgcodes. split; [|done]. intros k.
  pose proof (run_batch_inv_calls_for s sched _ (GetPricesFor_batch_inv s codes)
                (GetPricesFor_batch_inv_calls_for s codes) k) as Hcount.
  rewrite is_for_occurrences, Hgcodes in Hcount. lia.
Qed.

(** X10.  Whenever [GetPricesFor] returns, it returns an error exactly
    when one of its collaborator calls has failed: after a failed call it
    returns no values and an error, never a sequence of values, and without
    one it returns one value per key and no error. *)
Theorem GetPricesFor_error_iff_call_failed s codes sched rs err :
  coord (run sched (GetPricesFor codes s)) = Returned rs err →
  (is_Some err ↔
   Exists failed (calls_since s (cache (run sched (GetPricesFor codes s))))) ∧
  (is_Some err → rs = []) ∧
  (err = None → length rs = length codes).
Proof.
  intros Hret.
  destruct (batch_invariants s codes sched)
    as (Hsame & [Hgcodes (new & Hlog & Hk)] & _ & [_ Herr] & _).
  rewrite (calls_since_app _ _ _ Hlog) in *. rewrite Hret in Hk.
  destruct err as [err|].
  - split; [|split; [done|done]]. split; [|by eexists]. intros _.
    destruct (Herr rs err Hret) as (code & price & _ & Hin).
    apply Exists_exists. eexists. split; [done|]. by eexists.
  - destruct Hk as (Hperm & Hall & Hnofail).
    split; [|split; [by intros [? [=]]|]].
    + split; [by intros [? [=]]|done].
    + intros _. apply all_delivered_zip in Hall as [_ Hfull].
      apply Permutation_length in Hperm.
      apply (f_equal length) in Hgcodes. rewrite length_fmap, Hsame in Hgcodes.
      lia.
Qed.

(** X11.  A batch leaves the entries of keys that were not requested as
    they were. *)
Theorem GetPricesFor_keeps_other_keys s codes sched k :
  k ∉ codes →
  prices (cache (run sched (GetPricesFor codes s))) !! k = prices s !! k.
Proof.
  intros Hk. destruct (batch_invariants s codes sched) as (Hcodes & _ & _ & _ & _ & _ & Hframe).
  apply Hframe. by rewrite Hcodes.
Qed.

(** A batch of one key: a schedule can only move goroutine 0. *)
Lemma run_single c0 c1 c2 :
  length (goroutines c0) = 1%nat →
  step c0 0 = Some c1 → length (goroutines c1) = 1%nat →
  step c1 0 = Some c2 → terminal c2 →
  ∀ sched, terminal (run sched c0) → run sched c0 = c2.
Proof.
  intros Hlen0 Hstep0 Hlen1 Hstep1 Hterm2.
  assert (∀ c i, length (goroutines c) = 1%nat → step c (Datatypes.S i) = None) as Hother.
  { intros c i Hlen. unfold step.
    rewrite (lookup_ge_None_2 (goroutines c) (Datatypes.S i)) by lia. done. }
  assert (∀ sched, run sched c2 = c2) as Hrun2.
  { induction sched as [|i sched IH]; simpl; [done|]. by rewrite Hterm2. }
  assert (∀ sched, terminal (run sched c1) → run sched c1 = c2) as Hrun1.
  { induction sched as [|[|i] sched IH]; simpl.
    - intros Hterm. by rewrite Hterm in Hstep1.
    - rewrite Hstep1. simpl. intros _. apply Hrun2.
    - by rewrite Hother. }
  induction sched as [|[|i] sched IH]; simpl.
  - intros Hterm. by rewrite Hterm in Hstep0.
  - rewrite Hstep0. simpl. apply Hrun1.
  - by rewrite Hother.
Qed.

(** X12.  A key whose entry is present and not expired, asked for through
    [GetPricesFor] alone, is answered from the store without a collaborator
    call, and the coordinator writes the entry back with a new expiration
    instant, [maxAge] after its own clock reading: unlike [GetPriceFor], a
    batch read postpones the expiry of what it reads. *)
Theorem GetPricesFor_hit_restamps s itemCode item sched :
  prices s !! itemCode = Some item →
  now s <= Expiration item →
  terminal (run sched (GetPricesFor [itemCode] s)) →
  coord (run sched (GetPricesFor [itemCode] s)) = Returned [Price item] None ∧
  calls (cache (run sched (GetPricesFor [itemCode] s))) = calls s ∧
  prices (cache (run sched (GetPricesFor [itemCode] s))) =
    <[itemCode := mkItem (Price item)
                    (int64_wrap (clock s (Datatypes.S (tick s)) + maxAge s))]> (prices s).
Proof.
  intros Hlook Hfresh Hterm.
  assert ((now s >? Expiration item) = false) as Hnot
    by (destruct (Z.gtb_spec (now s) (Expiration item)); [lia|done]).
  pose (s1 := mkState (actualPriceService s) (maxAge s) (prices s) (clock s)
                      (Datatypes.S (tick s)) (calls s)).
  pose (c1 := mkConfig s1 [itemCode] [GSendHit itemCode (Price item)] (Selecting [])).
  pose (s2 := mkState (actualPriceService s) (maxAge s)
                (<[itemCode := mkItem (Price item)
                     (int64_wrap (clock s (Datatypes.S (tick s)) + maxAge s))]> (prices s))
                (clock s) (Datatypes.S (Datatypes.S (tick s))) (calls s)).
  pose (c2 := mkConfig s2 [itemCode] [GDone itemCode (Price item)]
                (Returned [Price item] None)).
  rewrite (run_single (GetPricesFor [itemCode] s) c1 c2); [done|done| |done| | |done].
  - unfold step, goStart, IsExpired, time_Now_UnixNano, getPrices, bind, ret. simpl.
    rewrite Hlook. simpl. fold (now s). by rewrite Hnot.
  - done.
  - intros i. by destruct i.
Qed.

Lemma step_batch_inv_crash c i c' :
  batch_inv_crash c → step c i = Some c' → batch_inv_crash c'.
Proof.
  intros Hcrash Hstep%step_moved. unfold batch_inv_crash.
  inversion Hstep as [code g' s' Hg Hgo|code g' s' Hg Hgo|code price err rs Hg Hsel
                     |g code price rs k s' Hg Hsend Hsel Hrecv|g rs err Hg Hat Hret];
    subst; simpl.
  - intros rs err Hret. eapply Exists_insert_other; eauto.
  - intros rs err Hret. eapply Exists_insert_other; eauto.
  - intros _ _ _. apply Exists_exists. exists (GSendRes code price).
    split; [by eapply elem_of_insert_new|done].
  - apply recvResult_spec in Hrecv as (_ & _ & ->).
    intros rs' err'. by destruct (_ =? _)%nat.
  - intros rs' err' Hret'. apply Exists_exists. exists (GPanic (gcode g)).
    split; [by eapply elem_of_insert_new|done].
Qed.

Lemma run_batch_inv_crash sched c :
  batch_inv_crash c → batch_inv_crash (run sched c).
Proof.
  revert c. induction sched as [|i sched IH]; intros c Hinv; simpl; [done|].
  apply IH. destruct (step c i) as [c'|] eqn:Hstep; simpl; [|done].
  by eapply step_batch_inv_crash.
Qed.

(** X13.  Every error return of [GetPricesFor] ends in a panic: when the
    call has returned an error and no goroutine can move any more, one of
    its goroutines has panicked on a closed channel. *)
Theorem GetPricesFor_error_return_panics s codes sched rs err :
  coord (run sched (GetPricesFor codes s)) = Returned rs (Some err) →
  terminal (run sched (GetPricesFor codes s)) →
  Exists panicked (goroutines (run sched (GetPricesFor codes s))).
Proof.
  intros Hret Hterm%terminal_all_stopped.
  assert (batch_inv_crash (GetPricesFor codes s)) as Hinit by (by intros ? ?).
  apply (run_batch_inv_crash sched) in Hinit.
  apply (Hinit rs err), Exists_exists in Hret as (g & Hin & Hpast).
  apply Exists_exists. exists g. split; [done|].
  eapply Forall_forall in Hterm; [|done]. by destruct g.
Qed.

Lemma terminal_of_stopped c :
  Forall (λ g, moves_left g = 0%nat) (goroutines c) → terminal c.
Proof.
  intros Hall i. unfold step.
  destruct (goroutines c !! i) as [g|] eqn:Hg; [|done].
  eapply Forall_lookup_1 in Hall; [|done]. by destruct g.
Qed.

End BatchMore.

(** ** Batch retrieval in the revision that purges expired entries *)

Section PurgingBatch.
Context {S : Type} `{!PriceService S}.
Implicit Types (s : state S) (c : pconfig S) (g : pgoroutine) (code : string).

Lemma pStart_spec code s g' s' :
  pStart code s = (g', s') →
  calls s' = calls s ∧ prices s' = prices s ∧
  (g' = PFetch code ∨ g' = PDelete code ∨ ∃ price, g' = PSendRes code price).
Proof.
  unfold pStart, IsExpired, time_Now_UnixNano, getPrices, bind, ret; simpl.
  destruct (prices s !! code) as [item|]; simpl.
  - destruct (_ >? _); simpl; intros; simplify_eq; eauto 10.
  - intros; simplify_eq; eauto.
Qed.

Lemma pDelete_spec code s g' s' :
  pDelete code s = (g', s') →
  calls s' = calls s ∧ prices s' = delete code (prices s) ∧ g' = PFetch code.
Proof. unfold pDelete, deletePrice, bind, ret; simpl. intros; by simplify_eq. Qed.

Lemma pFetch_spec code s g' s' :
  pFetch code s = (g', s') →
  prices s' = prices s ∧
  ∃ price,
    (g' = PStore code price ∧ calls s' = calls s ++ [(code, (price, None))]) ∨
    (∃ msg, g' = PSendErr code 0%float (wrapError msg) ∧
            calls s' = calls s ++ [(code, (price, Some msg))]).
Proof.
  unfold pFetch, callService, bind, ret; simpl.
  destruct (ServiceGetPriceFor _ _) as [svc' [price [err|]]]; simpl;
    intros; simplify_eq; simpl; eauto 10.
Qed.

Lemma pStore_spec code price s g' s' :
  pStore code price s = (g', s') →
  calls s' = calls s ∧
  prices s' = <[code := mkItem price (int64_wrap (clock s (tick s) + maxAge s))]> (prices s) ∧
  g' = PSendRes code price.
Proof.
  unfold pStore, planExpiration, time_Now_Add_UnixNano, storePrice, getMaxAge,
    bind, ret; simpl.
  intros; by simplify_eq.
Qed.

Lemma pgoroutine_code_requested c i g :
  pgcode <$> pgoroutines c = pitemCodes c →
  pgoroutines c !! i = Some g → pgcode g ∈ pitemCodes c.
Proof.
  intros <- Hg. apply list_elem_of_lookup. exists i.
  by rewrite list_lookup_fmap, Hg.
Qed.

(** A move that leaves the coordinator alone. *)
Lemma pbatch_inv_local s0 c i g g' s' extra :
  pbatch_inv s0 c →
  pgoroutines c !! i = Some g →
  pgcode g' = pgcode g →
  calls s' = calls (pcache c) ++ extra →
  (∀ k, k ≠ pgcode g → prices s' !! k = prices (pcache c) !! k) →
  (∀ code price err,
     g' = PSendErr code price err →
     price = 0%float ∧
     ∃ msg p0, err = wrapError msg ∧ (code, (p0, Some msg)) ∈ extra) →
  pbatch_inv s0 (presume c i g' s' (pcoord c)).
Proof.
  intros (Hcodes & [new Hlog] & Hflight & Hret & Hframe) Hg Hcode Hcalls Hprices Hnew.
  rewrite (calls_since_app _ _ _ Hlog) in Hflight, Hret.
  assert (calls s' = calls s0 ++ (new ++ extra)) as Hlog'
    by (by rewrite Hcalls, Hlog, (assoc_L (++))).
  unfold pbatch_inv. simpl. rewrite (calls_since_app _ _ _ Hlog').
  split; [by erewrite fmap_insert_same|]. split; [by eexists|]. split; [|split].
  - intros code price err [Heq|Hin]%elem_of_insert_inv.
    + destruct (Hnew code price err) as (-> & msg & p0 & -> & Hin); [done|].
      split; [done|]. exists msg, p0. split; [done|]. apply elem_of_app. by right.
    + destruct (Hflight code price err Hin) as (-> & msg & p0 & -> & Hin').
      split; [done|]. exists msg, p0. split; [done|]. apply elem_of_app. by left.
  - intros rs err Hk. destruct (Hret rs err Hk) as (-> & code & msg & p0 & ? & -> & Hin).
    split; [done|]. exists code, msg, p0. split; [done|]. split; [done|].
    apply elem_of_app. by left.
  - intros k Hk. rewrite Hprices; [by apply Hframe|]. intros ->.
    by apply Hk, (pgoroutine_code_requested c i g).
Qed.

Lemma pstep_batch_inv s0 c i c' :
  pbatch_inv s0 c → pstep c i = Some c' → pbatch_inv s0 c'.
Proof.
  intros Hinv. unfold pstep.
  destruct (pgoroutines c !! i) as [g|] eqn:Hg; [|done].
  destruct g as [code|code|code|code price|code price err|code price|code price|code].
  - destruct (pStart _ _) as [g' s'] eqn:Hgo. intros [= <-].
    apply pStart_spec in Hgo as (Hcalls & Hprices & Hg').
    apply (pbatch_inv_local s0 c i (PStart code) g' s' []); [done..| | | |].
    + by destruct Hg' as [->|[->|[? ->]]].
    + by rewrite app_nil_r.
    + intros k _. by rewrite Hprices.
    + intros ? ? ? ->. by destruct Hg' as [?|[?|[? ?]]].
  - destruct (pDelete _ _) as [g' s'] eqn:Hgo. intros [= <-].
    apply pDelete_spec in Hgo as (Hcalls & Hprices & ->).
    apply (pbatch_inv_local s0 c i (PDelete code) _ s' []); [done..| | |done].
    + by rewrite app_nil_r.
    + intros k Hk. rewrite Hprices. by apply lookup_delete_ne.
  - destruct (pFetch _ _) as [g' s'] eqn:Hgo. intros [= <-].
    apply pFetch_spec in Hgo as (Hprices & price & [[-> Hcalls]|(msg & -> & Hcalls)]).
    + apply (pbatch_inv_local s0 c i (PFetch code) _ s' [(code, (price, None))]);
        [done..| |done]. intros k _. by rewrite Hprices.
    + apply (pbatch_inv_local s0 c i (PFetch code) _ s' [(code, (price, Some msg))]);
        [done..| |]. { intros k _. by rewrite Hprices. }
      intros ? ? ? [= <- <- <-]. split; [done|]. exists msg, price.
      split; [done|]. by apply list_elem_of_singleton.
  - destruct (pStore _ _ _) as [g' s'] eqn:Hgo. intros [= <-].
    apply pStore_spec in Hgo as (Hcalls & Hprices & ->).
    apply (pbatch_inv_local s0 c i (PStore code price) _ s' []); [done..| | |done].
    + by rewrite app_nil_r.
    + intros k Hk. rewrite Hprices. by apply lookup_insert_ne.
  - destruct (pcoord c) as [rs|rs err'] eqn:Hk; intros [= <-].
    + destruct Hinv as (Hcodes & Hlog & Hflight & Hret & Hframe).
      unfold pbatch_inv. simpl.
      split; [by erewrite fmap_insert_same|]. split; [done|].
      split; [|split; [|done]].
      * intros code' price' err0 [?|Hin]%elem_of_insert_inv; [done|eauto].
      * intros rs' err0 [= <- <-].
        destruct (Hflight code price err) as (_ & msg & p0 & -> & Hin).
        { apply list_elem_of_lookup. by exists i. }
        split; [done|]. exists code, msg, p0. split; [|done].
        apply (pgoroutine_code_requested c i _ Hcodes Hg).
    + rewrite <- Hk.
      apply (pbatch_inv_local s0 c i (PSendErr code price err) _ _ []);
        [done..|by rewrite app_nil_r|done|done].
  - destruct (pcoord c) as [rs|rs err'] eqn:Hk; intros [= <-].
    + destruct Hinv as (Hcodes & Hlog & Hflight & Hret & Hframe).
      unfold pbatch_inv. simpl.
      split; [by erewrite fmap_insert_same|]. split; [done|].
      split; [|split; [|done]].
      * intros code' price' err0 [?|Hin]%elem_of_insert_inv; [done|eauto].
      * intros rs' err0. unfold precvResult. by destruct (_ =? _)%nat.
    + rewrite <- Hk.
      apply (pbatch_inv_local s0 c i (PSendRes code price) _ _ []);
        [done..|by rewrite app_nil_r|done|done].
  - done.
  - done.
Qed.

Lemma prun_batch_inv s0 sched c : pbatch_inv s0 c → pbatch_inv s0 (prun sched c).
Proof.
  revert c. induction sched as [|i sched IH]; intros c Hinv; simpl; [done|].
  apply IH. destruct (pstep c i) as [c'|] eqn:Hstep; simpl; [|done].
  by eapply pstep_batch_inv.
Qed.

Lemma GetPricesFor_purging_batch_inv s codes :
  pbatch_inv s (GetPricesFor_purging codes s).
Proof.
  assert (∀ g, g ∈ PStart <$> codes → ∃ code, g = PStart code) as Hstart.
  { intros g (code & -> & _)%list_elem_of_fmap. by exists code. }
  split; simpl.
  - clear. induction codes as [|k codes IH]; csimpl; [done|]. by rewrite IH.
  - split; [exists []; by rewrite app_nil_r|]. split; [|split; [done|done]].
    intros code price err (? & [=])%Hstart.
Qed.

Lemma prun_itemCodes sched c : pitemCodes (prun sched c) = pitemCodes c.
Proof.
  revert c. induction sched as [|i sched IH]; intros c; simpl; [done|].
  rewrite IH. destruct (pstep c i) as [c'|] eqn:Hstep; simpl; [|done].
  unfold pstep in Hstep. destruct (pgoroutines c !! i) as [g|]; [|done].
  destruct g;
    repeat match goal with
    | H : context [pStart ?a ?b] |- _ => destruct (pStart a b)
    | H : context [pDelete ?a ?b] |- _ => destruct (pDelete a b)
    | H : context [pFetch ?a ?b] |- _ => destruct (pFetch a b)
    | H : context [pStore ?a ?b ?d] |- _ => destruct (pStore a b d)
    | H : context [pcoord c] |- _ => destruct (pcoord c)
    end; by simplify_eq.
Qed.

Ltac pstep_cases H c i :=
  unfold pstep in H; destruct (pgoroutines c !! i) as [[]|]; [..|done];
  repeat match type of H with
  | context [pStart ?a ?b] => destruct (pStart a b)
  | context [pDelete ?a ?b] => destruct (pDelete a b)
  | context [pFetch ?a ?b] => destruct (pFetch a b)
  | context [pStore ?a ?b ?d] => destruct (pStore a b d)
  | context [pcoord c] => destruct (pcoord c)
  end; simplify_eq.

Lemma pstep_length c i c' :
  pstep c i = Some c' → length (pgoroutines c') = length (pgoroutines c).
Proof. intros Hstep. pstep_cases Hstep c i; simpl; apply length_insert. Qed.

Lemma piter_terminal n c : pterminal c → piter n c = c.
Proof. intros Hterm. destruct n; simpl; [done|]. by rewrite Hterm. Qed.

Lemma piter_add a b c : piter (a + b) c = piter b (piter a c).
Proof.
  revert c. induction a as [|a IH]; intros c; simpl; [done|].
  destruct (pstep c 0) as [c'|] eqn:Hstep; [apply IH|].
  clear IH. induction b as [|b IHb]; simpl; [done|]. by rewrite Hstep.
Qed.

(** With one goroutine every run is a number of moves of that goroutine, so
    a run that has come to an end is where those moves end. *)
Lemma prun_single sched n c :
  length (pgoroutines c) = 1%nat →
  pterminal (piter n c) → pterminal (prun sched c) → prun sched c = piter n c.
Proof.
  intros Hlen Hend Hterm.
  assert (∃ k, prun sched c = piter k c) as [k Hk].
  { clear Hend Hterm. revert c Hlen.
    induction sched as [|[|i] sched IH]; intros c Hlen; simpl.
    - by exists 0%nat.
    - destruct (pstep c 0) as [c'|] eqn:Hstep; simpl; [|by apply IH].
      destruct (IH c') as [k Hk]; [by rewrite (pstep_length _ _ _ Hstep)|].
      exists (Datatypes.S k). simpl. by rewrite Hstep.
    - assert (pstep c (Datatypes.S i) = None) as ->; [|by apply IH].
      unfold pstep. by rewrite (lookup_ge_None_2 (pgoroutines c) (Datatypes.S i)) by lia. }
  rewrite Hk in Hterm |- *.
  destruct (decide (k ≤ n)%nat) as [Hle|Hgt].
  - replace n with (k + (n - k))%nat by lia.
    by rewrite piter_add, (piter_terminal (n - k) (piter k c)).
  - replace k with (n + (k - n))%nat by lia.
    by rewrite piter_add, (piter_terminal (k - n) (piter n c)).
Qed.

(** X14.  In the revision whose goroutines call [GetPriceFor], the error
    that [GetPricesFor] returns is the one [GetPriceFor] made: the message
    of a failed collaborator call for a requested key behind
    "getting item from service : ", and it comes with no values. *)
Theorem GetPricesFor_purging_error_is_wrapped s codes sched rs err :
  pcoord (prun sched (GetPricesFor_purging codes s)) = Returned rs (Some err) →
  rs = [] ∧
  ∃ code msg price,
    code ∈ codes ∧
    err = String.append "getting item from service : " msg ∧
    (code, (price, Some msg)) ∈
      calls_since s (pcache (prun sched (GetPricesFor_purging codes s))).
Proof.
  intros Hret.
  destruct (prun_batch_inv s sched _ (GetPricesFor_purging_batch_inv s codes))
    as (_ & _ & _ & Herr & _).
  destruct (Herr rs err Hret) as (-> & code & msg & p0 & Hin & -> & Hcall).
  split; [done|]. exists code, msg, p0.
  by rewrite prun_itemCodes in Hin.
Qed.

(** X15.  In that revision too a batch leaves the entries of keys that
    were not requested as they were, although it may delete requested
    ones. *)
Theorem GetPricesFor_purging_keeps_other_keys s codes sched k :
  k ∉ codes →
  prices (pcache (prun sched (GetPricesFor_purging codes s))) !! k = prices s !! k.
Proof.
  intros Hk.
  destruct (prun_batch_inv s sched _ (GetPricesFor_purging_batch_inv s codes))
    as (_ & _ & _ & _ & Hframe).
  apply Hframe. by rewrite prun_itemCodes.
Qed.

(** X16.  In that revision a key whose entry is present and not expired,
    asked for through [GetPricesFor] alone, is answered from the store
    without a collaborator call and the store is left exactly as it was:
    the expiration instant is not moved. *)
Theorem GetPricesFor_purging_hit_keeps_store s itemCode item sched :
  prices s !! itemCode = Some item →
  now s <= Expiration item →
  pterminal (prun sched (GetPricesFor_purging [itemCode] s)) →
  pcoord (prun sched (GetPricesFor_purging [itemCode] s)) = Returned [Price item] None ∧
  calls (pcache (prun sched (GetPricesFor_purging [itemCode] s))) = calls s ∧
  prices (pcache (prun sched (GetPricesFor_purging [itemCode] s))) = prices s.
Proof.
  intros Hlook Hfresh Hterm.
  assert ((now s >? Expiration item) = false) as Hnot
    by (destruct (Z.gtb_spec (now s) (Expiration item)); [lia|done]).
  assert (piter 2 (GetPricesFor_purging [itemCode] s) =
          mkPConfig (mkState (actualPriceService s) (maxAge s) (prices s) (clock s)
                             (Datatypes.S (tick s)) (calls s))
                    [itemCode] [PDone itemCode (Price item)]
                    (Returned [Price item] None)) as Hend.
  { unfold piter, pstep, pStart, IsExpired, time_Now_UnixNano, getPrices, bind, ret.
    simpl. rewrite Hlook. simpl. fold (now s). by rewrite Hnot. }
  rewrite (prun_single sched 2); [by rewrite Hend|done| |done].
  rewrite Hend. intros i. by destruct i.
Qed.

(** X17.  In that revision a key whose entry has expired and whose fetch
    fails, asked for through [GetPricesFor] alone, costs the store its
    entry: the call returns no values and the wrapped error, the key is
    gone from the store, and the goroutine ends in a panic on the closed
    channel. *)
Theorem GetPricesFor_purging_failure_drops_key s itemCode item sched svc' price msg :
  prices s !! itemCode = Some item →
  now s > Expiration item →
  ServiceGetPriceFor (actualPriceService s) itemCode = (svc', (price, Some msg)) →
  pterminal (prun sched (GetPricesFor_purging [itemCode] s)) →
  pcoord (prun sched (GetPricesFor_purging [itemCode] s)) =
    Returned [] (Some (String.append "getting item from service : " msg)) ∧
  prices (pcache (prun sched (GetPricesFor_purging [itemCode] s))) =
    delete itemCode (prices s) ∧
  pgoroutines (prun sched (GetPricesFor_purging [itemCode] s)) = [PPanic itemCode].
Proof.
  intros Hlook Hstale Hsvc Hterm.
  assert ((now s >? Expiration item) = true) as Hexp
    by (destruct (Z.gtb_spec (now s) (Expiration item)); [done|lia]).
  assert (piter 5 (GetPricesFor_purging [itemCode] s) =
          mkPConfig (mkState svc' (maxAge s) (delete itemCode (prices s)) (clock s)
                             (Datatypes.S (tick s))
                             (calls s ++ [(itemCode, (price, Some msg))]))
                    [itemCode] [PPanic itemCode]
                    (Returned [] (Some (wrapError msg)))) as Hend.
  { unfold piter, pstep, pStart, pDelete, pFetch, IsExpired, time_Now_UnixNano,
      getPrices, deletePrice, callService, bind, ret.
    simpl. rewrite Hlook. simpl. fold (now s). rewrite Hexp. simpl.
    rewrite Hsvc. done. }
  rewrite (prun_single sched 5); [by rewrite Hend|done| |done].
  rewrite Hend. intros i. by destruct i.
Qed.

(** X18.  In that revision as well [GetPricesFor] without item codes stays
    in its [select] under every schedule: nothing is ever sent to it. *)
Theorem GetPricesFor_purging_no_keys_never_returns s sched :
  prun sched (GetPricesFor_purging [] s) = GetPricesFor_purging [] s ∧
  pcoord (prun sched (GetPricesFor_purging [] s)) = Selecting [] ∧
  pterminal (prun sched (GetPricesFor_purging [] s)).
Proof.
  assert (prun sched (GetPricesFor_purging [] s) = GetPricesFor_purging [] s) as ->
    by (induction sched as [|i sched IH]; simpl; [done|exact IH]).
  by repeat split.
Qed.

Lemma pterminal_of_stopped c :
  Forall (λ g, ∃ code, g = PPanic code ∨ ∃ price, g = PDone code price)
         (pgoroutines c) →
  pterminal c.
Proof.
  intros Hall i. unfold pstep.
  destruct (pgoroutines c !! i) as [g|] eqn:Hg; [|done].
  eapply Forall_lookup_1 in Hall; [|done].
  by destruct Hall as (code & [->|[price ->]]).
Qed.

End PurgingBatch.

(** ** The properties on the demonstration caches *)

Open Scope string_scope.
Open Scope list_scope.

(** C1 fails as stated: "b" is received before "a" and the values come back
    in that order, while the keys resolve to 1 and 2 in key order. *)
Lemma GetPricesFor_arrival_order_counterexample :
  let c := run [0; 0; 1; 1; 1; 0]%nat (GetPricesFor ["a"; "b"] demo_cache) in
  coord c = Returned [2%float; 1%float] None ∧
  goroutines c = [GDone "a" 1; GDone "b" 2] ∧
  ¬ in_key_order c.
Proof.
  intros c. split; [by vm_compute|]. split; [by vm_compute|].
  intros Horder. specialize (Horder [2%float; 1%float] eq_refl).
  apply (f_equal (λ gs, match gs with
                         | GDone _ price :: _ => PrimFloat.eqb price 1
                         | _ => false
                         end)) in Horder.
  vm_compute in Horder. discriminate.
Qed.

Lemma GetPricesFor_values_in_arrival_order_witness :
  let c := run [0; 0; 1; 1; 1; 0]%nat (GetPricesFor ["a"; "b"] demo_cache) in
  coord c = Returned [2%float; 1%float] None ∧
  ∃ values, goroutines c = zip_with GDone ["a"; "b"] values ∧
            length values = 2%nat ∧ [2%float; 1%float] ≡ₚ values.
Proof.
  intros c. assert (coord c = Returned [2%float; 1%float] None) as Hret
    by (by vm_compute).
  split; [exact Hret|].
  exact (proj1 (GetPricesFor_values_in_arrival_order demo_cache ["a"; "b"])
           [0; 0; 1; 1; 1; 0]%nat [2%float; 1%float] Hret).
Defined.

(** C9, on the code.  The fetch for "c" fails; its goroutine hands the error
    to the coordinator, which returns and closes both channels.  The same
    goroutine goes on to line 107 and panics on the closed [ch]; so does the
    goroutine for "a", which completes its fetch after the return. *)
Theorem GetPricesFor_late_send_panics :
  let c := run [0; 0; 0]%nat (GetPricesFor ["c"; "a"] demo_cache) in
  coord c = Returned [] (Some "item not found") ∧
  goroutines c = [GSendRes "c" 0; GStart "a"] ∧
  goroutines (run [0]%nat c) = [GPanic "c"; GStart "a"] ∧
  goroutines (run [1; 1]%nat c) = [GSendRes "c" 0; GSendRes "a" 1] ∧
  goroutines (run [1; 1; 1; 0]%nat c) = [GPanic "c"; GPanic "a"].
Proof. by vm_compute. Qed.


(** C5 fails as stated: at the expiration instant itself the entry is still
    served from the cache. *)
Lemma served_at_expiration_counterexample :
  ¬ (∀ (s : state stub) itemCode item,
       prices s !! itemCode = Some item →
       served_from_cache itemCode s ↔ now s < Expiration item).
Proof.
  intros Hclaim.
  destruct (Hclaim edge_cache "a" (mkItem 7 5000) eq_refl) as [Hlt _].
  assert (served_from_cache "a" edge_cache) as Hserved
    by (exists (mkItem 7 5000); by vm_compute).
  apply Hlt in Hserved. vm_compute in Hserved. discriminate.
Qed.

Lemma served_iff_not_past_expiration_witness :
  (prices edge_cache !! "a" = Some (mkItem 7 5000) ∧
   (served_from_cache "a" edge_cache ↔ now edge_cache <= 5000)) ∧
  (calls (GetPriceFor "a" demo_cache).2 = calls demo_cache ++ [("a", (1%float, None))] ∧
   prices (GetPriceFor "a" demo_cache).2 !! "a" = Some (mkItem 1 (int64_wrap (5000 + 1000)))).
Proof.
  split.
  - split; [reflexivity|].
    exact (proj1 served_iff_not_past_expiration edge_cache "a" (mkItem 7 5000) eq_refl).
  - split; [reflexivity|].
    exact (proj2 served_iff_not_past_expiration demo_cache "a" 1%float
             (GetPriceFor "a" demo_cache).2 eq_refl eq_refl).
Defined.



Lemma GetPriceFor_failure_keeps_store_witness :
  calls (GetPriceFor "A1" stale_cache).2 =
    calls stale_cache ++ [("A1", (0%float, Some "item not found"))] ∧
  prices (GetPriceFor "A1" stale_cache).2 = prices stale_cache ∧
  is_Some (GetPriceFor "A1" stale_cache).1.2.
Proof.
  split; [reflexivity|].
  apply (proj1 (GetPriceFor_failure_keeps_store stale_cache "A1" _ _
                  (surjective_pairing _))).
  by exists 0%float, "item not found".
Defined.

(** C7 fails as stated: the item code "A1" does not occur in the error that
    [GetPriceFor] returns for it. *)
Lemma GetPriceFor_error_without_key_counterexample :
  ¬ (∀ (s : state stub) itemCode r s' price err,
       GetPriceFor itemCode s = (r, s') →
       calls s' = calls s ++ [(itemCode, (price, Some err))] →
       ∃ msg, r.2 = Some msg ∧ contains itemCode msg = true).
Proof.
  intros Hclaim.
  destruct (Hclaim stale_cache "A1" _ _ 0%float "item not found"
              (surjective_pairing _) eq_refl) as (msg & Hmsg & Hin).
  vm_compute in Hmsg. injection Hmsg as <-. vm_compute in Hin. discriminate.
Qed.

Lemma GetPriceFor_error_text_witness :
  calls (GetPriceFor "A1" stale_cache).2 =
    calls stale_cache ++ [("A1", (0%float, Some "item not found"))] ∧
  (GetPriceFor "A1" stale_cache).1.2 =
    Some "getting item from service : item not found" ∧
  calls (GetPriceFor "c" demo_cache).2 =
    calls demo_cache ++ [("c", (0%float, Some "item not found"))] ∧
  (GetPriceFor "c" demo_cache).1.2 = (GetPriceFor "A1" stale_cache).1.2.
Proof.
  assert (calls (GetPriceFor "A1" stale_cache).2 =
          calls stale_cache ++ [("A1", (0%float, Some "item not found"))]) as Hlog
    by reflexivity.
  assert (calls (GetPriceFor "c" demo_cache).2 =
          calls demo_cache ++ [("c", (0%float, Some "item not found"))]) as Hlog2
    by reflexivity.
  destruct (GetPriceFor_error_text stale_cache "A1" _ _ 0%float "item not found"
              (surjective_pairing _) Hlog) as [Htext Hsame].
  split; [exact Hlog|]. split; [exact Htext|]. split; [exact Hlog2|].
  exact (Hsame demo_cache "c" _ _ 0%float (surjective_pairing _) Hlog2).
Defined.

Lemma GetPriceFor_failure_returns_zero_witness :
  prices stale_cache !! "A1" = Some (mkItem 5 4000) ∧
  calls (GetPriceFor "A1" stale_cache).2 =
    calls stale_cache ++ [("A1", (0%float, Some "item not found"))] ∧
  (GetPriceFor "A1" stale_cache).1.1 = 0%float ∧
  is_Some (GetPriceFor "A1" stale_cache).1.2.
Proof.
  split; [reflexivity|]. split; [reflexivity|].
  exact (GetPriceFor_failure_returns_zero stale_cache "A1" _ _ 0%float
           "item not found" (surjective_pairing _) eq_refl).
Defined.

(** C8 fails as stated: the variant of [GetPriceFor] that purges expired
    entries deletes the expired "A1", and the failed fetch leaves it out. *)
Lemma purging_removes_key_counterexample :
  "A1" ∈ dom (prices stale_cache) ∧
  (GetPriceFor_purging "A1" stale_cache).1 =
    (0%float, Some "getting item from service : item not found") ∧
  "A1" ∉ dom (prices (GetPriceFor_purging "A1" stale_cache).2).
Proof.
  split; [|split].
  - apply elem_of_dom. by eexists.
  - reflexivity.
  - intros [item Hitem]%elem_of_dom. vm_compute in Hitem. discriminate.
Qed.

(** ** The further properties on the demonstration caches *)

Lemma GetPriceFor_success_is_cached_witness :
  GetPriceFor "a" demo_cache = ((1%float, None), (GetPriceFor "a" demo_cache).2) ∧
  ∃ item, prices (GetPriceFor "a" demo_cache).2 !! "a" = Some item ∧
          Price item = 1%float.
Proof.
  assert (GetPriceFor "a" demo_cache =
          ((1%float, None), (GetPriceFor "a" demo_cache).2)) as Hcall
    by (by vm_compute).
  split; [exact Hcall|].
  exact (GetPriceFor_success_is_cached demo_cache "a" 1%float _ Hcall).
Defined.

Lemma GetPriceFor_keeps_other_keys_witness :
  "a" ≠ "b" ∧
  prices (GetPriceFor "b" edge_cache).2 !! "a" = prices edge_cache !! "a" ∧
  prices (GetPriceFor_purging "b" edge_cache).2 !! "a" = prices edge_cache !! "a".
Proof.
  assert ("a" ≠ "b") as Hne by done.
  split; [exact Hne|].
  exact (GetPriceFor_keeps_other_keys edge_cache "b" "a" Hne).
Defined.

Lemma GetPriceFor_miss_asks_once_witness :
  (∃ item, prices stale_cache !! "A1" = Some item ∧ now stale_cache > Expiration item) ∧
  calls (GetPriceFor "A1" stale_cache).2 =
    calls stale_cache ++ [("A1", (0%float, Some "item not found"))] ∧
  (GetPriceFor "A1" stale_cache).1 =
    (0%float, Some "getting item from service : item not found").
Proof.
  assert (∃ item, prices stale_cache !! "A1" = Some item ∧
                  now stale_cache > Expiration item) as Hstale
    by (exists (mkItem 5 4000); by vm_compute).
  split; [exact Hstale|].
  destruct (GetPriceFor_miss_asks_once stale_cache "A1" _ _ demo_service 0%float
              (Some "item not found") (or_intror Hstale) eq_refl
              (surjective_pairing _)) as (Hcalls & _ & Hr).
  split; [exact Hcalls|exact Hr].
Defined.

Lemma GetPriceFor_refetches_after_maxAge_witness :
  let s1 := (GetPriceFor "a" impatient_cache).2 in
  demo_clock 1 - demo_clock 0 > maxAge impatient_cache ∧
  ∃ answer,
    ServiceGetPriceFor (actualPriceService s1) "a" =
      (actualPriceService (GetPriceFor "a" s1).2, answer) ∧
    calls (GetPriceFor "a" s1).2 = calls s1 ++ [("a", answer)] ∧
    (answer.2 = None → (GetPriceFor "a" s1).1 = (answer.1, None)).
Proof.
  intros s1.
  assert (demo_clock 1 - demo_clock 0 > maxAge impatient_cache) as Hlater
    by (by vm_compute).
  assert (GetPriceFor "a" impatient_cache = (1%float, None, s1)) as Hfirst
    by (by vm_compute).
  assert (calls s1 = calls impatient_cache ++ [("a", (1%float, None))]) as Hlog
    by (by vm_compute).
  split; [exact Hlater|].
  apply (GetPriceFor_refetches_after_maxAge impatient_cache "a" 1%float s1
           (GetPriceFor "a" s1).1 (GetPriceFor "a" s1).2 Hfirst Hlog).
  - by vm_compute.
  - by vm_compute.
  - exact Hlater.
  - apply surjective_pairing.
Defined.

Lemma planExpiration_then_IsExpired_witness :
  in_int64 (clock demo_cache (tick demo_cache) + 1000) ∧
  (IsExpired (mkItem 1 (planExpiration 1000 demo_cache).1)
             (planExpiration 1000 demo_cache).2).1 = false.
Proof.
  assert (in_int64 (clock demo_cache (tick demo_cache) + 1000)) as Hexp
    by (by vm_compute).
  split; [exact Hexp|].
  rewrite (planExpiration_then_IsExpired demo_cache 1000 1%float Hexp); by vm_compute.
Defined.

Lemma GetPricesFor_error_is_the_collaborators_witness :
  let c := run [0; 0; 0]%nat (GetPricesFor ["c"; "a"] demo_cache) in
  coord c = Returned [] (Some "item not found") ∧
  ∃ code price, code ∈ ["c"; "a"] ∧
                (code, (price, Some "item not found")) ∈ calls_since demo_cache (cache c).
Proof.
  intros c.
  assert (coord c = Returned [] (Some "item not found")) as Hret by (by vm_compute).
  split; [exact Hret|].
  exact (proj2 (GetPricesFor_error_is_the_collaborators demo_cache ["c"; "a"]
                  [0; 0; 0]%nat [] "item not found" Hret)).
Defined.

Lemma GetPricesFor_success_caches_every_key_witness :
  let c := run [0; 0; 1; 1; 1; 0]%nat (GetPricesFor ["a"; "b"] demo_cache) in
  coord c = Returned [2%float; 1%float] None ∧
  ∀ k, k ∈ ["a"; "b"] →
       ∃ item, prices (cache c) !! k = Some item ∧ Price item ∈ [2%float; 1%float].
Proof.
  intros c.
  assert (coord c = Returned [2%float; 1%float] None) as Hret by (by vm_compute).
  split; [exact Hret|].
  exact (proj2 (GetPricesFor_success_caches_every_key demo_cache ["a"; "b"]
                  [0; 0; 1; 1; 1; 0]%nat [2%float; 1%float] Hret)).
Defined.

Lemma GetPricesFor_error_iff_call_failed_witness :
  let c := run [0; 1; 1; 1]%nat (GetPricesFor ["a"; "c"] demo_cache) in
  coord c = Returned [] (Some "item not found") ∧
  Exists failed (calls_since demo_cache (cache c)).
Proof.
  intros c.
  assert (coord c = Returned [] (Some "item not found")) as Hret by (by vm_compute).
  split; [exact Hret|].
  destruct (GetPricesFor_error_iff_call_failed demo_cache ["a"; "c"] [0; 1; 1; 1]%nat
              [] (Some "item not found") Hret) as ([Hfailed _] & _).
  apply Hfailed. by eexists.
Defined.

Lemma GetPricesFor_keeps_other_keys_witness :
  ("a" ∉ ["b"]) ∧
  prices (cache (run [0; 0; 0]%nat (GetPricesFor ["b"] edge_cache))) !! "a" =
    prices edge_cache !! "a".
Proof.
  assert ("a" ∉ ["b"]) as Hout by (by intros ?%list_elem_of_singleton).
  split; [exact Hout|].
  exact (GetPricesFor_keeps_other_keys edge_cache ["b"] [0; 0; 0]%nat "a" Hout).
Defined.

Lemma GetPricesFor_hit_restamps_witness :
  prices edge_cache !! "a" = Some (mkItem 7 5000) ∧
  now edge_cache <= 5000 ∧
  coord (run [0; 0]%nat (GetPricesFor ["a"] edge_cache)) = Returned [7%float] None ∧
  prices (cache (run [0; 0]%nat (GetPricesFor ["a"] edge_cache))) !! "a" =
    Some (mkItem 7 6001).
Proof.
  assert (now edge_cache <= 5000) as Hfresh by (by vm_compute).
  assert (terminal (run [0; 0]%nat (GetPricesFor ["a"] edge_cache))) as Hterm.
  { apply terminal_of_stopped.
    assert (goroutines (run [0; 0]%nat (GetPricesFor ["a"] edge_cache)) =
            [GDone "a" 7]) as -> by (by vm_compute).
    by repeat constructor. }
  split; [reflexivity|]. split; [exact Hfresh|].
  destruct (GetPricesFor_hit_restamps edge_cache "a" (mkItem 7 5000) [0; 0]%nat
              eq_refl Hfresh Hterm) as (Hret & _ & Hprices).
  split; [exact Hret|]. rewrite Hprices. by vm_compute.
Defined.

Lemma GetPricesFor_error_return_panics_witness :
  let c := run [0; 0; 0; 0]%nat (GetPricesFor ["c"] demo_cache) in
  coord c = Returned [] (Some "item not found") ∧ terminal c ∧
  Exists panicked (goroutines c).
Proof.
  intros c.
  assert (coord c = Returned [] (Some "item not found")) as Hret by (by vm_compute).
  assert (terminal c) as Hterm.
  { apply terminal_of_stopped.
    assert (goroutines c = [GPanic "c"]) as -> by (by vm_compute).
    by repeat constructor. }
  split; [exact Hret|]. split; [exact Hterm|].
  exact (GetPricesFor_error_return_panics demo_cache ["c"] [0; 0; 0; 0]%nat []
           "item not found" Hret Hterm).
Defined.

Lemma GetPricesFor_purging_error_is_wrapped_witness :
  let c := prun [0; 0; 0]%nat (GetPricesFor_purging ["c"] demo_cache) in
  pcoord c = Returned [] (Some "getting item from service : item not found") ∧
  ∃ code msg price,
    code ∈ ["c"] ∧
    "getting item from service : item not found" =
      String.append "getting item from service : " msg ∧
    (code, (price, Some msg)) ∈ calls_since demo_cache (pcache c).
Proof.
  intros c.
  assert (pcoord c = Returned [] (Some "getting item from service : item not found"))
    as Hret by (by vm_compute).
  split; [exact Hret|].
  exact (proj2 (GetPricesFor_purging_error_is_wrapped demo_cache ["c"] [0; 0; 0]%nat
                  [] _ Hret)).
Defined.

Lemma GetPricesFor_purging_keeps_other_keys_witness :
  ("a" ∉ ["b"]) ∧
  prices (pcache (prun [0; 0; 0; 0]%nat (GetPricesFor_purging ["b"] edge_cache))) !! "a" =
    prices edge_cache !! "a".
Proof.
  assert ("a" ∉ ["b"]) as Hout by (by intros ?%list_elem_of_singleton).
  split; [exact Hout|].
  exact (GetPricesFor_purging_keeps_other_keys edge_cache ["b"] [0; 0; 0; 0]%nat "a" Hout).
Defined.

Lemma GetPricesFor_purging_hit_keeps_store_witness :
  prices edge_cache !! "a" = Some (mkItem 7 5000) ∧
  now edge_cache <= 5000 ∧
  pcoord (prun [0; 0]%nat (GetPricesFor_purging ["a"] edge_cache)) = Returned [7%float] None ∧
  prices (pcache (prun [0; 0]%nat (GetPricesFor_purging ["a"] edge_cache))) =
    prices edge_cache.
Proof.
  assert (now edge_cache <= 5000) as Hfresh by (by vm_compute).
  assert (pterminal (prun [0; 0]%nat (GetPricesFor_purging ["a"] edge_cache))) as Hterm.
  { apply pterminal_of_stopped.
    assert (pgoroutines (prun [0; 0]%nat (GetPricesFor_purging ["a"] edge_cache)) =
            [PDone "a" 7]) as -> by (by vm_compute).
    repeat constructor. exists "a". right. by exists 7%float. }
  split; [reflexivity|]. split; [exact Hfresh|].
  destruct (GetPricesFor_purging_hit_keeps_store edge_cache "a" (mkItem 7 5000)
              [0; 0]%nat eq_refl Hfresh Hterm) as (Hret & _ & Hprices).
  split; [exact Hret|exact Hprices].
Defined.

Lemma GetPricesFor_purging_failure_drops_key_witness :
  prices stale_cache !! "A1" = Some (mkItem 5 4000) ∧
  now stale_cache > 4000 ∧
  pcoord (prun [0; 0; 0; 0; 0]%nat (GetPricesFor_purging ["A1"] stale_cache)) =
    Returned [] (Some "getting item from service : item not found") ∧
  prices (pcache (prun [0; 0; 0; 0; 0]%nat (GetPricesFor_purging ["A1"] stale_cache))) =
    delete "A1" (prices stale_cache).
Proof.
  assert (now stale_cache > 4000) as Hstale by (by vm_compute).
  assert (pterminal (prun [0; 0; 0; 0; 0]%nat (GetPricesFor_purging ["A1"] stale_cache)))
    as Hterm.
  { apply pterminal_of_stopped.
    assert (pgoroutines (prun [0; 0; 0; 0; 0]%nat (GetPricesFor_purging ["A1"] stale_cache)) =
            [PPanic "A1"]) as -> by (by vm_compute).
    repeat constructor. exists "A1". by left. }
  split; [reflexivity|]. split; [exact Hstale|].
  destruct (GetPricesFor_purging_failure_drops_key stale_cache "A1" (mkItem 5 4000)
              [0; 0; 0; 0; 0]%nat demo_service 0%float "item not found"
              eq_refl Hstale eq_refl Hterm) as (Hret & Hprices & _).
  split; [exact Hret|exact Hprices].
Defined.
